(** * rs-motion: the orientation estimator and the pose-to-matrix converter

    A shallow embedding of [examples/motion/rs-motion.cpp]: the class
    [rotation_estimator] (complementary filter over gyro and
    accelerometer samples) and the function [calc_transform].

    The C++ code computes on [float] and [double].  The embedding is
    generic in that arithmetic: every operation the source applies is a
    field of the class [Arithmetic], and the functions below apply them in
    the order and association of the source.  A statement proved for
    every [Arithmetic] holds for IEEE arithmetic as for any other; the
    statements that need algebraic laws are proved for the instance
    [Exact.RArith], where both number types are the real numbers: an
    idealisation of the program, whose arithmetic is the instance
    [IEEE.binary32]. *)

From Stdlib Require Import Reals Lra List Bool Arith Lia ZArith SpecFloat.
Import ListNotations.

(** ** The arithmetic of the source *)

Class Arithmetic : Type := {
  (** the C++ type [float] *)
  F : Type;
  (** the C++ type [double] *)
  D : Type;
  (** [float] [+], [-], [*] and unary [-] *)
  fadd : F -> F -> F;
  fsub : F -> F -> F;
  fmul : F -> F -> F;
  fneg : F -> F;
  (** the literals [0.0f], [1.0f] (also the [int] literal [1] converted
      to [float]) and the [int] literal [2] converted to [float] *)
  f0 : F;
  f1 : F;
  f2 : F;
  (** [double] [-] and [/] *)
  dsub : D -> D -> D;
  ddiv : D -> D -> D;
  (** the literal [0] converted to [double], and the literals [1000.0]
      and [0.98] *)
  d0 : D;
  d1000 : D;
  d098 : D;
  (** implicit conversions between the two types *)
  d2f : D -> F;
  f2d : F -> D;
  (** [atan2] and [sqrt] of the C library *)
  c_atan2 : D -> D -> D;
  c_sqrt : D -> D;
  (** Modelled from the spec: the macro [PI] of example.hpp, which is
      not part of the sources at hand, as it is stored into a [float];
      the spec calls it the fixed convention constant pi. *)
  fPI : F
}.

Declare Scope flt_scope.
Delimit Scope flt_scope with flt.
Infix "+" := fadd : flt_scope.
Infix "-" := fsub : flt_scope.
Infix "*" := fmul : flt_scope.
Notation "- a" := (fneg a) : flt_scope.

(** ** Data *)

Section Model.
Context {A : Arithmetic}.

(** [rs2_vector]: three [float] members x, y, z. *)
Record rs2_vector : Type := mk_vector { v_x : F; v_y : F; v_z : F }.

(** [rs2_quaternion]: four [float] members x, y, z, w. *)
Record rs2_quaternion : Type :=
  mk_quaternion { q_x : F; q_y : F; q_z : F; q_w : F }.

(** [rs2_pose], restricted to the two members [calc_transform] reads. *)
Record rs2_pose : Type :=
  mk_pose { translation : rs2_vector; rotation : rs2_quaternion }.

(** [float3]: three [float] members x, y, z. *)
Record float3 : Type := mk_float3 { f3_x : F; f3_y : F; f3_z : F }.

(** Modelled from the spec: [float3::operator*(float)] of example.hpp,
    which is not part of the sources at hand; the spec has the angle
    delta computed as the sample times dt, component-wise. *)
Definition float3_mul (a : float3) (t : F) : float3 :=
  mk_float3 (f3_x a * t)%flt (f3_y a * t)%flt (f3_z a * t)%flt.

(** Modelled from the spec: [float3::add(float, float, float)] of
    example.hpp, which is not part of the sources at hand; the spec has
    the three arguments added to the three components of theta. *)
Definition float3_add (a : float3) (t1 t2 t3 : F) : float3 :=
  mk_float3 (f3_x a + t1)%flt (f3_y a + t2)%flt (f3_z a + t3)%flt.

(** ** class rotation_estimator

    The data members, without the mutex (the sequential model has no
    use for it; see [Module Conc] for the model with the mutex). *)
Record rotation_estimator : Type := mk_estimator {
  theta : float3;
  alpha : F;
  first : bool;
  last_ts_gyro : D
}.

(** The implicit constructor: [alpha = 0.98], [first = true],
    [last_ts_gyro = 0].  [theta] has no initializer, its value at
    construction is indeterminate: it is the argument [theta0]. *)
Definition estimator_init (theta0 : float3) : rotation_estimator :=
  {| theta := theta0; alpha := d2f d098; first := true; last_ts_gyro := d0 |}.

(** The time delta of [process_gyro], in seconds, as a [double]. *)
Definition dt_gyro (ts last : D) : D := ddiv (dsub ts last) d1000.

Definition process_gyro (gyro_data : rs2_vector) (ts : D)
    (e : rotation_estimator) : rotation_estimator :=
  if first e then
    {| theta := theta e; alpha := alpha e; first := first e;
       last_ts_gyro := ts |}
  else
    let gyro_angle :=
      mk_float3 (v_x gyro_data) (v_y gyro_data) (v_z gyro_data) in
    let dt := dt_gyro ts (last_ts_gyro e) in
    let gyro_angle := float3_mul gyro_angle (d2f dt) in
    {| theta := float3_add (theta e)
                  (- f3_z gyro_angle)%flt (- f3_y gyro_angle)%flt
                  (f3_x gyro_angle);
       alpha := alpha e; first := first e; last_ts_gyro := ts |}.

(** The two angles [process_accel] derives from the sample. *)
Definition accel_roll (a : rs2_vector) : F :=
  d2f (c_atan2 (f2d (v_y a)) (f2d (v_z a))).

Definition accel_pitch (a : rs2_vector) : F :=
  d2f (c_atan2 (f2d (v_x a))
         (c_sqrt (f2d (v_y a * v_y a + v_z a * v_z a)%flt))).

(** In the branch of the first call the source copies [accel_angle]
    into [theta] and then overwrites [theta.y]; the member
    [accel_angle.y] is never assigned, and the copied value does not
    survive the overwrite. *)
Definition process_accel (accel_data : rs2_vector)
    (e : rotation_estimator) : rotation_estimator :=
  let accel_angle_z := accel_roll accel_data in
  let accel_angle_x := accel_pitch accel_data in
  if first e then
    {| theta := mk_float3 accel_angle_x fPI accel_angle_z;
       alpha := alpha e; first := false; last_ts_gyro := last_ts_gyro e |}
  else
    {| theta :=
         mk_float3
           (f3_x (theta e) * alpha e + accel_angle_x * (f1 - alpha e))%flt
           (f3_y (theta e))
           (f3_z (theta e) * alpha e + accel_angle_z * (f1 - alpha e))%flt;
       alpha := alpha e; first := first e; last_ts_gyro := last_ts_gyro e |}.

(** [get_theta] is not a const member: it returns the value and the
    estimator it leaves behind. *)
Definition get_theta (e : rotation_estimator) : float3 * rotation_estimator :=
  (theta e, e).

(** ** calc_transform

    The source fills the sixteen cells of the caller's array; the model
    returns them as a list, cell [i] at position [i]. *)
Definition calc_transform (pose_data : rs2_pose) : list F :=
  let q := rotation pose_data in
  let t := translation pose_data in
  let x := q_x q in let y := q_y q in let z := q_z q in let w := q_w q in
  [ (- (f1 - f2 * y * y - f2 * z * z))%flt;
    (- (f2 * x * y + f2 * z * w))%flt;
    (- (f2 * x * z - f2 * y * w))%flt;
    f0;
    (f2 * x * y - f2 * z * w)%flt;
    (f1 - f2 * x * x - f2 * z * z)%flt;
    (f2 * y * z + f2 * x * w)%flt;
    f0;
    (- (f2 * x * z + f2 * y * w))%flt;
    (- (f2 * y * z - f2 * x * w))%flt;
    (- (f1 - f2 * x * x - f2 * y * y))%flt;
    f0;
    v_x t;
    v_y t;
    v_z t;
    f1 ].

(** Cell of row [r], column [c] of a column-major 4x4 matrix. *)
Definition cell (m : list F) (r c : nat) : F := nth (c * 4 + r) m f0.

(** The textbook rotation matrix of a quaternion (x, y, z, w), row [r]
    and column [c]; this definition follows the spec's words (the
    standard quaternion-to-rotation-matrix formula), not the source.
    Outside the 3x3 block it is zero. *)
Definition quat_rotation_matrix (q : rs2_quaternion) (r c : nat) : F :=
  let x := q_x q in let y := q_y q in let z := q_z q in let w := q_w q in
  match r, c with
  | 0, 0 => (f1 - f2 * y * y - f2 * z * z)%flt
  | 0, 1 => (f2 * x * y - f2 * z * w)%flt
  | 0, 2 => (f2 * x * z + f2 * y * w)%flt
  | 1, 0 => (f2 * x * y + f2 * z * w)%flt
  | 1, 1 => (f1 - f2 * x * x - f2 * z * z)%flt
  | 1, 2 => (f2 * y * z - f2 * x * w)%flt
  | 2, 0 => (f2 * x * z - f2 * y * w)%flt
  | 2, 1 => (f2 * y * z + f2 * x * w)%flt
  | 2, 2 => (f1 - f2 * x * x - f2 * y * y)%flt
  | _, _ => f0
  end.

(** Negation of columns 0 and 2, as the spec words the correction. *)
Definition flip_col (c : nat) (v : F) : F :=
  match c with
  | 0 | 2 => (- v)%flt
  | _ => v
  end.

(** ** Sequences of calls

    The estimator is driven by calls of its three member functions; a
    history is the list of the calls made so far, oldest first. *)
Inductive call : Type :=
| Gyro (gyro_data : rs2_vector) (ts : D)
| Accel (accel_data : rs2_vector)
| GetTheta.

Definition is_accel (c : call) : bool :=
  match c with Accel _ => true | _ => false end.

Definition is_get_theta (c : call) : bool :=
  match c with GetTheta => true | _ => false end.

Definition do_call (e : rotation_estimator) (c : call) : rotation_estimator :=
  match c with
  | Gyro g ts => process_gyro g ts e
  | Accel a => process_accel a e
  | GetTheta => snd (get_theta e)
  end.

Definition run (cs : list call) (e : rotation_estimator) : rotation_estimator :=
  fold_left do_call cs e.

(** [n] calls of [process_accel] with the same sample. *)
Fixpoint accel_iter (n : nat) (a : rs2_vector) (e : rotation_estimator)
    : rotation_estimator :=
  match n with
  | O => e
  | S k => process_accel a (accel_iter k a e)
  end.

End Model.

(** ** Exact arithmetic: both number types are the real numbers

    An idealisation of the arithmetic of the program: no rounding, no
    overflow or underflow, no infinities or NaN, no signed zero. *)

Module Exact.

Local Open Scope R_scope.

(** The two-argument arctangent over the reals, which [atan2 y x] of
    the C library computes up to rounding: the angle of the point
    (x, y), in (-PI, PI], and 0 at the origin.  The reals have no
    signed zero: unlike the C function it gives PI, never -PI, at
    y = 0, x < 0. *)
Definition Ratan2 (y x : R) : R :=
  if Rlt_dec 0 x then atan (y / x)
  else if Rlt_dec x 0 then
    if Rle_dec 0 y then atan (y / x) + PI else atan (y / x) - PI
  else if Rlt_dec 0 y then PI / 2
  else if Rlt_dec y 0 then - (PI / 2)
  else 0.

#[export] Instance RArith : Arithmetic := {|
  F := R; D := R;
  fadd := Rplus; fsub := Rminus; fmul := Rmult; fneg := Ropp;
  f0 := 0; f1 := 1; f2 := 2;
  dsub := Rminus; ddiv := Rdiv;
  d0 := 0; d1000 := 1000; d098 := 98 / 100;
  d2f := fun x => x; f2d := fun x => x;
  c_atan2 := Ratan2; c_sqrt := sqrt;
  fPI := PI
|}.

(** One step of the complementary filter on one angle: the line
    [theta.x = theta.x * alpha + accel_angle.x * (1 - alpha)] with the
    target [t] for [accel_angle.x]. *)
Definition blend (al t x : R) : R := x * al + t * (1 - al).

(** The pitch and the roll after [n] calls of [process_accel] with the
    sample [a]. *)
Definition pitch_seq (a : rs2_vector) (e : rotation_estimator) (n : nat) : R :=
  f3_x (theta (accel_iter n a e)).

Definition roll_seq (a : rs2_vector) (e : rotation_estimator) (n : nat) : R :=
  f3_z (theta (accel_iter n a e)).

(** [b] lies strictly between [a] and [c]. *)
Definition strictly_between (a b c : R) : Prop :=
  (a < b < c) \/ (c < b < a).

End Exact.

(** ** The estimator shared between threads

    The member functions as sequences of atomic steps, interleaved
    under sequential consistency.  A step is one access to a data
    member, or the construction or destruction of a [lock_guard];
    [theta] is read and written one component at a time.  The mutex is
    a cell that holds its owner; locking a mutex that is held blocks.

    Modelled from the spec: the member functions of [float3] that
    [process_gyro] and [process_accel] call on [theta] (the assignment
    and [add]) are in example.hpp, which is not part of the sources at
    hand; they work component by component, here in the order x, y,
    z. *)

Module Conc.
Section Machine.
Context {A : Arithmetic}.

Definition tid : Type := nat.

(** The object: the data members and [theta_mtx]. *)
Record shared : Type := mk_shared {
  obj : rotation_estimator;
  theta_mtx : option tid
}.

Definition set_theta_x (x : F) (e : rotation_estimator) : rotation_estimator :=
  {| theta := mk_float3 x (f3_y (theta e)) (f3_z (theta e));
     alpha := alpha e; first := first e; last_ts_gyro := last_ts_gyro e |}.

Definition set_theta_y (y : F) (e : rotation_estimator) : rotation_estimator :=
  {| theta := mk_float3 (f3_x (theta e)) y (f3_z (theta e));
     alpha := alpha e; first := first e; last_ts_gyro := last_ts_gyro e |}.

Definition set_theta_z (z : F) (e : rotation_estimator) : rotation_estimator :=
  {| theta := mk_float3 (f3_x (theta e)) (f3_y (theta e)) z;
     alpha := alpha e; first := first e; last_ts_gyro := last_ts_gyro e |}.

Definition set_first (b : bool) (e : rotation_estimator) : rotation_estimator :=
  {| theta := theta e; alpha := alpha e; first := b;
     last_ts_gyro := last_ts_gyro e |}.

Definition set_last_ts_gyro (ts : D) (e : rotation_estimator)
    : rotation_estimator :=
  {| theta := theta e; alpha := alpha e; first := first e;
     last_ts_gyro := ts |}.

(** Where a thread stands: the statement it executes next, with the
    values of its local variables. *)
Inductive pc : Type :=
| Idle
  (* process_gyro *)
| G_test (gyro_data : rs2_vector) (ts : D)      (* if (first) *)
| G_stamp (ts : D)                              (* last_ts_gyro = ts; return *)
| G_dt (gyro_data : rs2_vector) (ts : D)        (* dt_gyro = (ts - last_ts_gyro) / 1000.0 *)
| G_last (gyro_data : rs2_vector) (ts : D) (dt : D)
                                                (* last_ts_gyro = ts; gyro_angle = gyro_angle * dt_gyro *)
| G_lock (gyro_angle : float3)                  (* lock_guard lock(theta_mtx) *)
| G_add_x (gyro_angle : float3)                 (* theta.add: x += -gyro_angle.z *)
| G_add_y (gyro_angle : float3)                 (* theta.add: y += -gyro_angle.y *)
| G_add_z (gyro_angle : float3)                 (* theta.add: z += gyro_angle.x *)
| G_unlock                                      (* ~lock_guard; return *)
  (* process_accel *)
| A_lock (accel_angle : float3)                 (* lock_guard lock(theta_mtx) *)
| A_test (accel_angle : float3)                 (* if (first) *)
| A_first (accel_angle : float3)                (* first = false *)
| A_copy_x (accel_angle : float3)               (* theta = accel_angle: x *)
| A_copy_y (accel_angle : float3)               (* theta = accel_angle: y *)
| A_copy_z (accel_angle : float3)               (* theta = accel_angle: z *)
| A_yaw                                         (* theta.y = PI *)
| A_blend_x (accel_angle : float3)              (* theta.x = theta.x * alpha + ... *)
| A_blend_z (accel_angle : float3)              (* theta.z = theta.z * alpha + ... *)
| A_unlock                                      (* ~lock_guard; return *)
  (* get_theta *)
| T_lock                                        (* lock_guard lock(theta_mtx) *)
| T_read_x                                      (* return theta: x *)
| T_read_y (x : F)                              (* return theta: y *)
| T_read_z (x y : F)                            (* return theta: z *)
| T_unlock (r : float3)                         (* ~lock_guard *)
| T_ret (r : float3).                           (* the caller holds r *)

(** The statements between the construction of a [lock_guard] and its
    destruction. *)
Definition in_cs (p : pc) : bool :=
  match p with
  | G_add_x _ | G_add_y _ | G_add_z _ | G_unlock
  | A_test _ | A_first _ | A_copy_x _ | A_copy_y _ | A_copy_z _ | A_yaw
  | A_blend_x _ | A_blend_z _ | A_unlock
  | T_read_x | T_read_y _ | T_read_z _ _ | T_unlock _ => true
  | _ => false
  end.

(** A thread between two calls. *)
Definition at_rest (p : pc) : bool :=
  match p with
  | Idle | T_ret _ => true
  | _ => false
  end.

(** The first statement of a call.  [process_accel] computes
    [accel_angle] from its argument alone; the member y of that local
    variable is never assigned, [junk] is the value it happens to
    hold. *)
Definition entry (c : call) (junk : F) : pc :=
  match c with
  | Gyro g ts => G_test g ts
  | Accel a => A_lock (mk_float3 (accel_pitch a) junk (accel_roll a))
  | GetTheta => T_lock
  end.

Definition on_obj (f : rotation_estimator -> rotation_estimator)
    (s : shared) : shared :=
  {| obj := f (obj s); theta_mtx := theta_mtx s |}.

Definition lock (t : tid) (p : pc) (s : shared) : option (pc * shared) :=
  match theta_mtx s with
  | None => Some (p, {| obj := obj s; theta_mtx := Some t |})
  | Some _ => None
  end.

Definition unlock (s : shared) : shared :=
  {| obj := obj s; theta_mtx := None |}.

(** One step of thread [t] standing at [p]; [None] when the thread
    cannot move (it is at rest, or it waits for the mutex). *)
Definition thread_step (t : tid) (p : pc) (s : shared) : option (pc * shared) :=
  let e := obj s in
  match p with
  | Idle | T_ret _ => None
  | G_test g ts => Some (if first e then G_stamp ts else G_dt g ts, s)
  | G_stamp ts => Some (Idle, on_obj (set_last_ts_gyro ts) s)
  | G_dt g ts => Some (G_last g ts (dt_gyro ts (last_ts_gyro e)), s)
  | G_last g ts dt =>
      Some (G_lock (float3_mul (mk_float3 (v_x g) (v_y g) (v_z g)) (d2f dt)),
            on_obj (set_last_ts_gyro ts) s)
  | G_lock ga => lock t (G_add_x ga) s
  | G_add_x ga =>
      Some (G_add_y ga,
            on_obj (set_theta_x (f3_x (theta e) + - f3_z ga)%flt) s)
  | G_add_y ga =>
      Some (G_add_z ga,
            on_obj (set_theta_y (f3_y (theta e) + - f3_y ga)%flt) s)
  | G_add_z ga =>
      Some (G_unlock, on_obj (set_theta_z (f3_z (theta e) + f3_x ga)%flt) s)
  | G_unlock => Some (Idle, unlock s)
  | A_lock acc => lock t (A_test acc) s
  | A_test acc => Some (if first e then A_first acc else A_blend_x acc, s)
  | A_first acc => Some (A_copy_x acc, on_obj (set_first false) s)
  | A_copy_x acc => Some (A_copy_y acc, on_obj (set_theta_x (f3_x acc)) s)
  | A_copy_y acc => Some (A_copy_z acc, on_obj (set_theta_y (f3_y acc)) s)
  | A_copy_z acc => Some (A_yaw, on_obj (set_theta_z (f3_z acc)) s)
  | A_yaw => Some (A_unlock, on_obj (set_theta_y fPI) s)
  | A_blend_x acc =>
      Some (A_blend_z acc,
            on_obj (set_theta_x
                      (f3_x (theta e) * alpha e
                       + f3_x acc * (f1 - alpha e))%flt) s)
  | A_blend_z acc =>
      Some (A_unlock,
            on_obj (set_theta_z
                      (f3_z (theta e) * alpha e
                       + f3_z acc * (f1 - alpha e))%flt) s)
  | A_unlock => Some (Idle, unlock s)
  | T_lock => lock t T_read_x s
  | T_read_x => Some (T_read_y (f3_x (theta e)), s)
  | T_read_y x => Some (T_read_z x (f3_y (theta e)), s)
  | T_read_z x y => Some (T_unlock (mk_float3 x y (f3_z (theta e))), s)
  | T_unlock r => Some (T_ret r, unlock s)
  end.

(** The threads and the object they share. *)
Record state : Type := mk_state {
  pcs : tid -> pc;
  mem : shared
}.

Definition set_pc (t : tid) (p : pc) (f : tid -> pc) : tid -> pc :=
  fun t' => if Nat.eqb t' t then p else f t'.

(** What can happen: a thread at rest calls a member function, or a
    thread takes its next step. *)
Inductive event : Type :=
| CallEv (t : tid) (c : call) (junk : F)
| StepEv (t : tid).

Definition do_event (ev : event) (st : state) : option state :=
  match ev with
  | CallEv t c junk =>
      if at_rest (pcs st t)
      then Some {| pcs := set_pc t (entry c junk) (pcs st); mem := mem st |}
      else None
  | StepEv t =>
      match thread_step t (pcs st t) (mem st) with
      | Some (p, s) => Some {| pcs := set_pc t p (pcs st); mem := s |}
      | None => None
      end
  end.

Fixpoint do_events (evs : list event) (st : state) : option state :=
  match evs with
  | [] => Some st
  | ev :: evs' =>
      match do_event ev st with
      | Some st' => do_events evs' st'
      | None => None
      end
  end.

Definition step (st st' : state) : Prop :=
  exists ev : event, do_event ev st = Some st'.

Inductive steps (st : state) : state -> Prop :=
| steps_refl : steps st st
| steps_snoc (st1 st2 : state) :
    steps st st1 -> step st1 st2 -> steps st st2.

(** [n] steps of thread [t] with no step of another thread between
    them. *)
Fixpoint solo_run (t : tid) (n : nat) (p : pc) (s : shared)
    : option (pc * shared) :=
  match n with
  | O => Some (p, s)
  | S k =>
      match thread_step t p s with
      | Some (p', s') => solo_run t k p' s'
      | None => None
      end
  end.

(** All threads at rest around a freshly constructed estimator. *)
Definition init_state (theta0 : float3) : state :=
  {| pcs := fun _ => Idle;
     mem := {| obj := estimator_init theta0; theta_mtx := None |} |}.

Definition reachable (theta0 : float3) (st : state) : Prop :=
  steps (init_state theta0) st.

Definition theta_of (st : state) : float3 := theta (obj (mem st)).

(** No thread stands between a lock and its unlock. *)
Definition quiescent (st : state) : Prop :=
  theta_mtx (mem st) = None /\ forall t : tid, in_cs (pcs st t) = false.

(** The mutex is held by the one thread that stands between a lock and
    its unlock, if there is one. *)
Definition mutex_inv (st : state) : Prop :=
  forall t : tid, in_cs (pcs st t) = true <-> theta_mtx (mem st) = Some t.

End Machine.
End Conc.

(** ** The updates of theta, each as a whole

    What a call of [process_gyro] or [process_accel] does to the
    members between the construction of its [lock_guard] and its
    destruction, as one step of the sequential object: [theta.add]
    with its three arguments (lines 170-171), and the locked block of
    [process_accel] (lines 184-202).  The argument of [UGyro] is the
    local variable [gyro_angle], that of [UAccel] the local variable
    [accel_angle]. *)

Module Lin.
Section Atomic.
Context {A : Arithmetic}.
Import Conc.

(** What a call of [process_gyro] or of [process_accel] does to the
    object between its lock and its unlock, named by the local variable
    it works from. *)
Inductive update : Type :=
| UGyro (gyro_angle : float3)
| UAccel (accel_angle : float3).

(** The update made at once, all members together: the statement
    [theta.add(-gyro_angle.z, -gyro_angle.y, gyro_angle.x)] of
    [process_gyro], the locked block of [process_accel]. *)
Definition apply_update (e : rotation_estimator) (u : update)
    : rotation_estimator :=
  match u with
  | UGyro ga =>
      {| theta := float3_add (theta e)
                    (- f3_z ga)%flt (- f3_y ga)%flt (f3_x ga);
         alpha := alpha e; first := first e;
         last_ts_gyro := last_ts_gyro e |}
  | UAccel acc =>
      if first e then
        {| theta := mk_float3 (f3_x acc) fPI (f3_z acc);
           alpha := alpha e; first := false;
           last_ts_gyro := last_ts_gyro e |}
      else
        {| theta :=
             mk_float3
               (f3_x (theta e) * alpha e + f3_x acc * (f1 - alpha e))%flt
               (f3_y (theta e))
               (f3_z (theta e) * alpha e + f3_z acc * (f1 - alpha e))%flt;
           alpha := alpha e; first := first e;
           last_ts_gyro := last_ts_gyro e |}
  end.

Definition apply_updates (us : list update) (e : rotation_estimator)
    : rotation_estimator :=
  fold_left apply_update us e.

(** The update an event commits: that of the call whose [lock_guard]
    the step constructs, with the value its local variable has then.
    [get_theta] commits none. *)
Definition commit (ev : event) (st : state) : list update :=
  match ev with
  | StepEv t =>
      match pcs st t, theta_mtx (mem st) with
      | G_lock ga, None => [UGyro ga]
      | A_lock acc, None => [UAccel acc]
      | _, _ => []
      end
  | CallEv _ _ _ => []
  end.

(** [run_to theta0 us st]: a run from the initial state leads to [st],
    and [us] are the updates it has committed, in the order in which
    their calls took the mutex. *)
Inductive run_to (theta0 : float3) : list update -> state -> Prop :=
| run_init : run_to theta0 [] (init_state theta0)
| run_event (us : list update) (st st' : state) (ev : event) :
    run_to theta0 us st ->
    do_event ev st = Some st' ->
    run_to theta0 (us ++ commit ev st) st'.

(** The updates a list of events commits from [st] on. *)
Fixpoint committed (evs : list event) (st : state) : list update :=
  match evs with
  | [] => []
  | ev :: evs' =>
      match do_event ev st with
      | Some st' => commit ev st ++ committed evs' st'
      | None => []
      end
  end.

(** The object once thread [t], standing at [p] between a lock and its
    unlock, has run to its unlock with no step of another thread in
    between ([n] bounds the number of steps; 8 is enough). *)
Fixpoint finish (n : nat) (t : tid) (p : pc) (s : shared) : shared :=
  match n with
  | O => s
  | S k =>
      if in_cs p then
        match thread_step t p s with
        | Some (p', s') => finish k t p' s'
        | None => s
        end
      else s
  end.

(** The members the locked blocks read and write. *)
Definition core (e : rotation_estimator) : float3 * bool * F :=
  (theta e, first e, alpha e).

(** The object with the update in flight, if there is one, brought to
    its end. *)
Definition pending (st : state) : rotation_estimator :=
  match theta_mtx (mem st) with
  | None => obj (mem st)
  | Some t => obj (finish 8 t (pcs st t) (mem st))
  end.

(** [r] is the value [theta] had at a moment of the run that led to
    [st] at which thread [t] was about to lock the mutex in [get_theta]
    and the mutex was free; [us1] are the updates committed until that
    moment, the first of the updates [us] committed until [st]. *)
Definition snapshot (theta0 : float3) (us : list update) (st : state)
    (t : tid) (r : float3) : Prop :=
  exists (us1 us2 : list update) (st1 : state),
    us = us1 ++ us2 /\ run_to theta0 us1 st1 /\ steps st1 st /\
    pcs st1 t = T_lock /\ theta_mtx (mem st1) = None /\ theta_of st1 = r.

(** What the run so far tells about a thread inside [get_theta]. *)
Definition reader_inv (theta0 : float3) (us : list update) (st : state)
    (t : tid) : Prop :=
  match pcs st t with
  | T_read_x => snapshot theta0 us st t (theta_of st)
  | T_read_y x =>
      snapshot theta0 us st t (theta_of st) /\ x = f3_x (theta_of st)
  | T_read_z x y =>
      snapshot theta0 us st t (theta_of st) /\
      x = f3_x (theta_of st) /\ y = f3_y (theta_of st)
  | T_unlock r => snapshot theta0 us st t r /\ r = theta_of st
  | T_ret r => snapshot theta0 us st t r
  | _ => True
  end.

End Atomic.
End Lin.

(** A run in exact arithmetic: thread 0 makes the first call of
    [process_accel], thread 1 calls [get_theta] while that call is in
    flight and gets the mutex once thread 0 has released it. *)
Module Demo.
Import Exact Conc.
Local Open Scope R_scope.

Definition producer : tid := 0%nat.
Definition reader : tid := 1%nat.

(** The value [theta] happens to hold at construction. *)
Definition theta0 : float3 := mk_float3 1 2 3.

Definition demo_run : list event :=
  [ CallEv producer (Accel (mk_vector 0 0 1)) 7;
    StepEv producer; StepEv producer; StepEv producer; StepEv producer;
    CallEv reader GetTheta 0;
    StepEv producer; StepEv producer; StepEv producer; StepEv producer;
    StepEv reader; StepEv reader; StepEv reader; StepEv reader; StepEv reader ].

(** The same run with thread 1 asking for the mutex while thread 0
    holds it. *)
Definition blocked_run : list event :=
  [ CallEv producer (Accel (mk_vector 0 0 1)) 7;
    StepEv producer; StepEv producer; StepEv producer; StepEv producer;
    CallEv reader GetTheta 0;
    StepEv reader ].

End Demo.

(** ** Device enumeration: check_supported_stream *)

Module Streams.

(** [rs2_stream] is declared by the SDK, not by this file: the three
    enumerators the file compares with, and one constructor for each
    of the others. *)
Inductive rs2_stream : Type :=
| RS2_STREAM_GYRO
| RS2_STREAM_ACCEL
| RS2_STREAM_POSE
| RS2_STREAM_OTHER (n : nat).

Definition stream_eqb (a b : rs2_stream) : bool :=
  match a, b with
  | RS2_STREAM_GYRO, RS2_STREAM_GYRO => true
  | RS2_STREAM_ACCEL, RS2_STREAM_ACCEL => true
  | RS2_STREAM_POSE, RS2_STREAM_POSE => true
  | RS2_STREAM_OTHER n, RS2_STREAM_OTHER m => Nat.eqb n m
  | _, _ => false
  end.

(** [rs2_format], likewise: the two enumerators the file names. *)
Inductive rs2_format : Type :=
| RS2_FORMAT_MOTION_XYZ32F
| RS2_FORMAT_6DOF
| RS2_FORMAT_OTHER (n : nat).

Definition format_eqb (a b : rs2_format) : bool :=
  match a, b with
  | RS2_FORMAT_MOTION_XYZ32F, RS2_FORMAT_MOTION_XYZ32F => true
  | RS2_FORMAT_6DOF, RS2_FORMAT_6DOF => true
  | RS2_FORMAT_OTHER n, RS2_FORMAT_OTHER m => Nat.eqb n m
  | _, _ => false
  end.

(** The anonymous enumeration at the top of the file. *)
Inductive supported : Type := ERROR | IMU | POSE.

(** What [check_supported_stream] reads of the connected hardware: a
    sensor is the list of the stream types of its profiles, a device
    the list of its sensors, both in the order the SDK enumerates
    them. *)
Definition sensor : Type := list rs2_stream.
Definition device : Type := list sensor.

(** The innermost loop.  [inl r]: the function has returned [r];
    [inr (found_gyro, found_accel)]: the loop has run to its end. *)
Fixpoint scan_profiles (ps : sensor) (found_gyro found_accel : bool)
    : supported + bool * bool :=
  match ps with
  | [] => inr (found_gyro, found_accel)
  | profile :: ps' =>
      if stream_eqb profile RS2_STREAM_POSE then inl POSE
      else
        let found_gyro :=
          if stream_eqb profile RS2_STREAM_GYRO then true else found_gyro in
        let found_accel :=
          if stream_eqb profile RS2_STREAM_ACCEL then true else found_accel in
        scan_profiles ps' found_gyro found_accel
  end.

(** The loop over the sensors of one device. *)
Fixpoint scan_sensors (ss : device) (found_gyro found_accel : bool)
    : supported + bool * bool :=
  match ss with
  | [] => inr (found_gyro, found_accel)
  | s :: ss' =>
      match scan_profiles s found_gyro found_accel with
      | inl r => inl r
      | inr (fg, fa) => scan_sensors ss' fg fa
      end
  end.

(** The loop over the devices: both flags are cleared at the start of
    each device. *)
Fixpoint scan_devices (ds : list device) (found_gyro found_accel : bool)
    : supported :=
  match ds with
  | [] => ERROR
  | dev :: ds' =>
      match scan_sensors dev false false with
      | inl r => r
      | inr (fg, fa) => if fg && fa then IMU else scan_devices ds' fg fa
      end
  end.

(** [devs] is what the second call of [query_devices] returns (the
    result of the first one is dropped). *)
Definition check_supported_stream (devs : list device) : supported :=
  scan_devices devs false false.

(** Whether some profile of some sensor of the device has stream type
    [s]. *)
Definition has_stream (s : rs2_stream) (dev : device) : bool :=
  existsb (existsb (stream_eqb s)) dev.

(** A device the example can work with: it has a pose stream, or both
    a gyro and an accelerometer stream. *)
Definition usable (dev : device) : bool :=
  has_stream RS2_STREAM_POSE dev
  || (has_stream RS2_STREAM_GYRO dev && has_stream RS2_STREAM_ACCEL dev).

(** What one device makes the function return; [ERROR] stands for
    going on to the next device. *)
Definition device_result (dev : device) : supported :=
  if has_stream RS2_STREAM_POSE dev then POSE
  else if has_stream RS2_STREAM_GYRO dev && has_stream RS2_STREAM_ACCEL dev
       then IMU
       else ERROR.

(** Two devices that offer the same stream types. *)
Definition same_streams (d d' : device) : Prop :=
  forall s : rs2_stream, has_stream s d = has_stream s d'.

End Streams.

(** ** The frame callback of main *)

Section Callback.
Context {A : Arithmetic}.
Import Streams.

(** What the callback reads of a frame: whether it is a motion frame
    (the cast [frame.as<rs2::motion_frame>()] gives a frame that is
    not empty), the stream type and the format of its profile, its
    timestamp and its motion data. *)
Record frame : Type := mk_frame {
  is_motion : bool;
  stream_type : rs2_stream;
  format : rs2_format;
  get_timestamp : D;
  get_motion_data : rs2_vector
}.

(** The lambda given to [pipe.start], on the estimator [algo] it
    captures. *)
Definition on_frame (algo : rotation_estimator) (f : frame)
    : rotation_estimator :=
  let algo :=
    if is_motion f && stream_eqb (stream_type f) RS2_STREAM_GYRO
       && format_eqb (format f) RS2_FORMAT_MOTION_XYZ32F
    then process_gyro (get_motion_data f) (get_timestamp f) algo
    else algo in
  if is_motion f && stream_eqb (stream_type f) RS2_STREAM_ACCEL
     && format_eqb (format f) RS2_FORMAT_MOTION_XYZ32F
  then process_accel (get_motion_data f) algo
  else algo.

Definition on_frames (fs : list frame) (algo : rotation_estimator)
    : rotation_estimator :=
  fold_left on_frame fs algo.

(** The member function a frame makes the callback call, if any. *)
Definition frame_call (f : frame) : option call :=
  if is_motion f && format_eqb (format f) RS2_FORMAT_MOTION_XYZ32F then
    match stream_type f with
    | RS2_STREAM_GYRO => Some (Gyro (get_motion_data f) (get_timestamp f))
    | RS2_STREAM_ACCEL => Some (Accel (get_motion_data f))
    | _ => None
    end
  else None.

Definition frame_calls (fs : list frame) : list call :=
  flat_map (fun f => match frame_call f with
                     | Some c => [c]
                     | None => []
                     end) fs.

(** ** Histories, continued *)

Definition is_gyro (c : call) : bool :=
  match c with Gyro _ _ => true | _ => false end.

(** The timestamp of the last call of [process_gyro] of a history, and
    [d] if it has none. *)
Definition latest_ts (cs : list call) (d : D) : D :=
  fold_left (fun d c => match c with Gyro _ ts => ts | _ => d end) cs d.

End Callback.

(** ** Quaternions in exact arithmetic, continued *)

Module Geometry.
Import Exact.
Local Open Scope R_scope.

Definition qneg (q : rs2_quaternion) : rs2_quaternion :=
  mk_quaternion (- q_x q) (- q_y q) (- q_z q) (- q_w q).

End Geometry.

(** Two more runs in exact arithmetic. *)
Module Demo2.
Import Exact Conc Demo.
Local Open Scope R_scope.

(** The producer has taken the mutex, found the flag set and cleared
    it; the reader has called [get_theta] and waits. *)
Definition waiting_run : list event :=
  [ CallEv producer (Accel (mk_vector 0 0 1)) 7;
    StepEv producer; StepEv producer; StepEv producer;
    CallEv reader GetTheta 0 ].

End Demo2.

(** ** The arithmetic of the program: IEEE 754 binary32 and binary64

    [float] is binary32 and [double] binary64, with the operations of
    [SpecFloat] (round to nearest, ties to even). *)

Module IEEE.









End IEEE.

(** * Properties *)

(** ** The sequential estimator, for every arithmetic *)

Section Estimator.
Context {A : Arithmetic}.

Lemma process_gyro_uninit (g : rs2_vector) (ts : D) (e : rotation_estimator) :
  first e = true ->
  process_gyro g ts e =
  {| theta := theta e; alpha := alpha e; first := true; last_ts_gyro := ts |}.
Proof.
  intros Hf. unfold process_gyro. rewrite Hf. reflexivity.
Qed.

Lemma process_gyro_init (g : rs2_vector) (ts : D) (e : rotation_estimator) :
  first e = false ->
  let dt := d2f (ddiv (dsub ts (last_ts_gyro e)) d1000) in
  process_gyro g ts e =
  {| theta := mk_float3 (f3_x (theta e) + - (v_z g * dt))%flt
                        (f3_y (theta e) + - (v_y g * dt))%flt
                        (f3_z (theta e) + v_x g * dt)%flt;
     alpha := alpha e; first := false; last_ts_gyro := ts |}.
Proof.
  intros Hf. unfold process_gyro. rewrite Hf. reflexivity.
Qed.

Lemma process_gyro_first (g : rs2_vector) (ts : D) (e : rotation_estimator) :
  first (process_gyro g ts e) = first e.
Proof.
  unfold process_gyro. destruct (first e) eqn:Hf; simpl; congruence.
Qed.

Lemma process_gyro_alpha (g : rs2_vector) (ts : D) (e : rotation_estimator) :
  alpha (process_gyro g ts e) = alpha e.
Proof.
  unfold process_gyro. destruct (first e); reflexivity.
Qed.

Lemma process_gyro_last_ts (g : rs2_vector) (ts : D) (e : rotation_estimator) :
  last_ts_gyro (process_gyro g ts e) = ts.
Proof.
  unfold process_gyro. destruct (first e); reflexivity.
Qed.

Lemma process_accel_first (a : rs2_vector) (e : rotation_estimator) :
  first (process_accel a e) = false.
Proof.
  unfold process_accel. destruct (first e) eqn:Hf; simpl; congruence.
Qed.

Lemma process_accel_alpha (a : rs2_vector) (e : rotation_estimator) :
  alpha (process_accel a e) = alpha e.
Proof.
  unfold process_accel. destruct (first e); reflexivity.
Qed.

Lemma process_accel_last_ts (a : rs2_vector) (e : rotation_estimator) :
  last_ts_gyro (process_accel a e) = last_ts_gyro e.
Proof.
  unfold process_accel. destruct (first e); reflexivity.
Qed.

Lemma process_accel_uninit (a : rs2_vector) (e : rotation_estimator) :
  first e = true ->
  theta (process_accel a e) = mk_float3 (accel_pitch a) fPI (accel_roll a).
Proof.
  intros Hf. unfold process_accel. rewrite Hf. reflexivity.
Qed.

Lemma process_accel_init (a : rs2_vector) (e : rotation_estimator) :
  first e = false ->
  process_accel a e =
  {| theta :=
       mk_float3
         (f3_x (theta e) * alpha e + accel_pitch a * (f1 - alpha e))%flt
         (f3_y (theta e))
         (f3_z (theta e) * alpha e + accel_roll a * (f1 - alpha e))%flt;
     alpha := alpha e; first := false; last_ts_gyro := last_ts_gyro e |}.
Proof.
  intros Hf. unfold process_accel. rewrite Hf. reflexivity.
Qed.

(** Histories: [run] one call at a time, from either end. *)
Lemma run_snoc (cs : list call) (c : call) (e : rotation_estimator) :
  run (cs ++ [c]) e = do_call (run cs e) c.
Proof.
  unfold run. rewrite fold_left_app. reflexivity.
Qed.

Lemma do_call_alpha (e : rotation_estimator) (c : call) :
  alpha (do_call e c) = alpha e.
Proof.
  destruct c; simpl;
    auto using process_gyro_alpha, process_accel_alpha.
Qed.

(** No member function writes [alpha]: it keeps the value the
    constructor gave it. *)
Lemma run_alpha (cs : list call) (e : rotation_estimator) :
  alpha (run cs e) = alpha e.
Proof.
  induction cs as [|c cs IH] using rev_ind.
  - reflexivity.
  - now rewrite run_snoc, do_call_alpha.
Qed.

Lemma do_call_first (e : rotation_estimator) (c : call) :
  first (do_call e c) = first e && negb (is_accel c).
Proof.
  destruct c; simpl.
  - rewrite process_gyro_first. now rewrite andb_true_r.
  - rewrite process_accel_first. now rewrite andb_false_r.
  - now rewrite andb_true_r.
Qed.

(** The flag [first] of an estimator tells whether [process_accel] has
    been called on it: only that function clears it, and nothing sets
    it again. *)
Lemma run_first (cs : list call) (e : rotation_estimator) :
  first (run cs e) = first e && negb (existsb is_accel cs).
Proof.
  induction cs as [|c cs IH] using rev_ind.
  - simpl. now rewrite andb_true_r.
  - rewrite run_snoc, do_call_first, IH, existsb_app. simpl.
    rewrite orb_false_r, negb_orb. now rewrite andb_assoc.
Qed.

Lemma run_init_first (theta0 : float3) (cs : list call) :
  first (run cs (estimator_init theta0)) = negb (existsb is_accel cs).
Proof.
  rewrite run_first. reflexivity.
Qed.

(** Calls of [get_theta] alone leave a history without effect. *)
Lemma run_get_theta_only (cs : list call) (e : rotation_estimator) :
  forallb is_get_theta cs = true -> run cs e = e.
Proof.
  induction cs as [| c cs IH]; simpl; intros H.
  - reflexivity.
  - apply andb_prop in H as [Hc Hcs].
    destruct c; try discriminate Hc. simpl. exact (IH Hcs).
Qed.

(** Until [process_accel] is called, [theta] keeps the value it had at
    construction. *)
Lemma run_no_accel_theta (cs : list call) (e : rotation_estimator) :
  first e = true ->
  existsb is_accel cs = false ->
  theta (run cs e) = theta e.
Proof.
  intros Hf. induction cs as [|c cs IH] using rev_ind; intros Hn.
  - reflexivity.
  - rewrite existsb_app in Hn. apply orb_false_elim in Hn as [Hcs Hc].
    simpl in Hc. rewrite orb_false_r in Hc.
    rewrite run_snoc. specialize (IH Hcs).
    assert (Hr : first (run cs e) = true).
    { rewrite run_first, Hf, Hcs. reflexivity. }
    destruct c as [g ts| a |]; simpl.
    + now rewrite (process_gyro_uninit g ts _ Hr).
    + discriminate Hc.
    + exact IH.
Qed.

(** [process_accel] and [get_theta] leave [last_ts_gyro] alone, and
    [process_gyro] stores its timestamp whatever the flag says. *)
Lemma run_last_ts (cs : list call) (e : rotation_estimator) :
  last_ts_gyro (run cs e) = latest_ts cs (last_ts_gyro e).
Proof.
  induction cs as [| c cs IH] using rev_ind.
  - reflexivity.
  - rewrite run_snoc. unfold latest_ts in *. rewrite fold_left_app. simpl.
    destruct c; simpl.
    + apply process_gyro_last_ts.
    + now rewrite process_accel_last_ts.
    + exact IH.
Qed.

Lemma latest_ts_no_gyro (cs : list call) (d : D) :
  existsb is_gyro cs = false -> latest_ts cs d = d.
Proof.
  unfold latest_ts. revert d. induction cs as [| c cs IH]; intros d H; simpl.
  - reflexivity.
  - simpl in H. apply orb_false_elim in H as [Hc Hcs].
    destruct c; try discriminate Hc; now apply IH.
Qed.

(** The stored timestamp is that of the last call of [process_gyro]. *)
Lemma latest_ts_last_gyro (pre post : list call) (v0 : rs2_vector)
    (ts0 d : D) :
  existsb is_gyro post = false ->
  latest_ts (pre ++ Gyro v0 ts0 :: post) d = ts0.
Proof.
  intros Hpost. unfold latest_ts. rewrite fold_left_app. simpl.
  exact (latest_ts_no_gyro post ts0 Hpost).
Qed.

(** Repeated calls of [process_accel] with one sample. *)
Lemma accel_iter_first (n : nat) (a : rs2_vector) (e : rotation_estimator) :
  first e = false -> first (accel_iter n a e) = false.
Proof.
  intros Hf. destruct n as [|n]; simpl.
  - exact Hf.
  - apply process_accel_first.
Qed.

Lemma accel_iter_alpha (n : nat) (a : rs2_vector) (e : rotation_estimator) :
  alpha (accel_iter n a e) = alpha e.
Proof.
  induction n as [|n IH]; simpl.
  - reflexivity.
  - now rewrite process_accel_alpha.
Qed.






End Estimator.

(** ** calc_transform, for every arithmetic *)

Section Transform.
Context {A : Arithmetic}.

(** The column-major layout of the result, cell by cell. *)
Lemma calc_transform_cells (p : rs2_pose) :
  let m := calc_transform p in
  let R := quat_rotation_matrix (rotation p) in
  m = [ (- R 0 0)%flt; (- R 1 0)%flt; (- R 2 0)%flt; f0;
        R 0 1; R 1 1; R 2 1; f0;
        (- R 0 2)%flt; (- R 1 2)%flt; (- R 2 2)%flt; f0;
        v_x (translation p); v_y (translation p); v_z (translation p); f1 ].
Proof.
  reflexivity.
Qed.

Lemma calc_transform_rotation (p : rs2_pose) (r c : nat) :
  r < 3 -> c < 3 ->
  cell (calc_transform p) r c =
  flip_col c (quat_rotation_matrix (rotation p) r c).
Proof.
  intros Hr Hc.
  assert (Er : r = 0 \/ r = 1 \/ r = 2) by lia.
  assert (Ec : c = 0 \/ c = 1 \/ c = 2) by lia.
  destruct Er as [-> | [-> | ->]], Ec as [-> | [-> | ->]]; reflexivity.
Qed.

End Transform.

(** ** Exact arithmetic *)

Section ExactFilter.
Import Exact.
Local Open Scope R_scope.

Variables (al t : R).

Lemma blend_error (x : R) : blend al t x - t = al * (x - t).
Proof.
  unfold blend. ring.
Qed.

Lemma blend_iter_error (n : nat) (x : R) :
  Nat.iter n (blend al t) x - t = al ^ n * (x - t).
Proof.
  induction n as [|n IH]; simpl.
  - ring.
  - rewrite blend_error, IH. ring.
Qed.

Hypothesis al_range : 0 < al < 1.

Lemma blend_between (x : R) :
  x <> t -> strictly_between x (blend al t x) t.
Proof.
  intros Hx. pose proof (blend_error x) as He.
  unfold strictly_between.
  destruct (Rtotal_order x t) as [Hlt | [Heq | Hgt]].
  - left. split; nra.
  - contradiction.
  - right. split; nra.
Qed.

Lemma blend_iter_apart (n : nat) (x : R) :
  x <> t -> Nat.iter n (blend al t) x <> t.
Proof.
  intros Hx Heq.
  pose proof (blend_iter_error n x) as He.
  rewrite Heq, Rminus_diag in He.
  symmetry in He. apply Rmult_integral in He as [Hp | Hd].
  - revert Hp. apply pow_nonzero. lra.
  - apply Hx. lra.
Qed.

Lemma blend_iter_cv (x : R) :
  Un_cv (fun n => Nat.iter n (blend al t) x) t.
Proof.
  intros eps Heps.
  set (k := Rabs (x - t) + 1).
  assert (Hk : 0 < k) by (unfold k; pose proof (Rabs_pos (x - t)); lra).
  destruct (pow_lt_1_zero al) with (y := eps / k) as [N HN].
  - rewrite Rabs_pos_eq; lra.
  - apply Rdiv_lt_0_compat; lra.
  - exists N. intros n Hn. specialize (HN n Hn).
    unfold Rdist. rewrite blend_iter_error, Rabs_mult.
    apply Rle_lt_trans with (Rabs (al ^ n) * k).
    + apply Rmult_le_compat_l; [apply Rabs_pos | unfold k; lra].
    + apply Rmult_lt_reg_r with (/ k).
      * now apply Rinv_0_lt_compat.
      * rewrite Rmult_assoc, Rinv_r, Rmult_1_r by lra. exact HN.
Qed.

End ExactFilter.

Section ExactEstimator.
Import Exact.
Local Open Scope R_scope.

Lemma pitch_seq_blend (a : rs2_vector) (e : rotation_estimator) (n : nat) :
  first e = false ->
  pitch_seq a e n =
  Nat.iter n (blend (alpha e) (accel_pitch a)) (f3_x (theta e)).
Proof.
  intros Hf. unfold pitch_seq. induction n as [|n IH]; simpl.
  - reflexivity.
  - rewrite process_accel_init by now apply accel_iter_first.
    simpl. rewrite accel_iter_alpha, IH. reflexivity.
Qed.

Lemma roll_seq_blend (a : rs2_vector) (e : rotation_estimator) (n : nat) :
  first e = false ->
  roll_seq a e n =
  Nat.iter n (blend (alpha e) (accel_roll a)) (f3_z (theta e)).
Proof.
  intros Hf. unfold roll_seq. induction n as [|n IH]; simpl.
  - reflexivity.
  - rewrite process_accel_init by now apply accel_iter_first.
    simpl. rewrite accel_iter_alpha, IH. reflexivity.
Qed.

(** The C library's [atan2] at the two points the gravity-aligned
    sample asks for. *)
Lemma Ratan2_0_pos (x : R) : 0 < x -> Ratan2 0 x = 0.
Proof.
  intros Hx. unfold Ratan2.
  destruct (Rlt_dec 0 x) as [_ | Hn]; [| contradiction].
  unfold Rdiv. rewrite Rmult_0_l. apply atan_0.
Qed.

Lemma accel_down_angles :
  accel_pitch (mk_vector 0 0 1) = 0 /\ accel_roll (mk_vector 0 0 1) = 0.
Proof.
  unfold accel_pitch, accel_roll. simpl. split.
  - replace (0 * 0 + 1 * 1) with 1 by ring. rewrite sqrt_1.
    apply Ratan2_0_pos. lra.
  - apply Ratan2_0_pos. lra.
Qed.

(** Read over the reals, the recurrence of the filter is a contraction
    towards the inclination angles atan2(a.x, sqrt(a.y*a.y + a.z*a.z))
    and atan2(a.y, a.z) of the sample: with alpha strictly between 0
    and 1 every step lies strictly between the previous value and the
    angle, the sequences converge to the angles, and they do not reach
    them after finitely many calls unless they start there.  This is
    a fact of the idealisation: the rounding of the program's
    arithmetic does not keep it. *)
Lemma exact_filter_converges (e : rotation_estimator) (a : rs2_vector) :
  first e = false ->
  0 < alpha e < 1 ->
  let P := Ratan2 (v_x a) (sqrt (v_y a * v_y a + v_z a * v_z a)) in
  let Q := Ratan2 (v_y a) (v_z a) in
  (forall n : nat, pitch_seq a e n <> P ->
      strictly_between (pitch_seq a e n) (pitch_seq a e (S n)) P) /\
  (forall n : nat, roll_seq a e n <> Q ->
      strictly_between (roll_seq a e n) (roll_seq a e (S n)) Q) /\
  Un_cv (pitch_seq a e) P /\
  Un_cv (roll_seq a e) Q /\
  (f3_x (theta e) <> P -> forall n : nat, pitch_seq a e n <> P) /\
  (f3_z (theta e) <> Q -> forall n : nat, roll_seq a e n <> Q) /\
  (f3_x (theta e) = P -> forall n : nat, pitch_seq a e n = P) /\
  (f3_z (theta e) = Q -> forall n : nat, roll_seq a e n = Q).
Proof.
  intros Hf Hal P Q.
  assert (Hp : forall n, pitch_seq a e n =
                 Nat.iter n (blend (alpha e) P) (f3_x (theta e)))
    by (intros n; now apply pitch_seq_blend).
  assert (Hr : forall n, roll_seq a e n =
                 Nat.iter n (blend (alpha e) Q) (f3_z (theta e)))
    by (intros n; now apply roll_seq_blend).
  repeat split.
  - intros n Hn. rewrite !Hp in *. simpl. now apply blend_between.
  - intros n Hn. rewrite !Hr in *. simpl. now apply blend_between.
  - apply Un_cv_ext with (2 := blend_iter_cv (alpha e) P Hal (f3_x (theta e))).
    intros n. now rewrite Hp.
  - apply Un_cv_ext with (2 := blend_iter_cv (alpha e) Q Hal (f3_z (theta e))).
    intros n. now rewrite Hr.
  - intros H0 n. rewrite Hp. now apply blend_iter_apart.
  - intros H0 n. rewrite Hr. now apply blend_iter_apart.
  - intros H0 n. rewrite Hp.
    pose proof (blend_iter_error (alpha e) P n (f3_x (theta e))) as He.
    rewrite H0 in He |- *. nra.
  - intros H0 n. rewrite Hr.
    pose proof (blend_iter_error (alpha e) Q n (f3_z (theta e))) as He.
    rewrite H0 in He |- *. nra.
Qed.

End ExactEstimator.

(** ** The shared estimator *)

Module ConcFacts.
Import Conc.

Section Interleaving.
Context {A : Arithmetic}.

Lemma set_pc_same (t : tid) (p : pc) (f : tid -> pc) : set_pc t p f t = p.
Proof.
  unfold set_pc. now rewrite Nat.eqb_refl.
Qed.

Lemma set_pc_other (t t' : tid) (p : pc) (f : tid -> pc) :
  t' <> t -> set_pc t p f t' = f t'.
Proof.
  intros Hne. unfold set_pc.
  destruct (Nat.eqb_spec t' t) as [-> | _]; [contradiction | reflexivity].
Qed.

Ltac step_cases p s H :=
  destruct p; simpl in H; unfold lock in H;
  try destruct (theta_mtx s) eqn:?; try destruct (first (obj s)) eqn:?;
  inversion H; subst; clear H; simpl in *.

(** A statement outside the critical sections does not write [theta]. *)
Lemma thread_step_outside (t : tid) (p p' : pc) (s s' : shared) :
  thread_step t p s = Some (p', s') ->
  in_cs p = false ->
  theta (obj s') = theta (obj s).
Proof.
  intros H Hcs. step_cases p s H; try reflexivity; discriminate.
Qed.

(** How a step moves a thread in and out of its critical section, and
    what it does to the mutex. *)
Lemma thread_step_enter (t : tid) (p p' : pc) (s s' : shared) :
  thread_step t p s = Some (p', s') ->
  in_cs p = false ->
  (in_cs p' = false /\ theta_mtx s' = theta_mtx s) \/
  (in_cs p' = true /\ theta_mtx s = None /\ theta_mtx s' = Some t).
Proof.
  intros H Hcs. step_cases p s H; try discriminate; auto.
Qed.

Lemma thread_step_inside (t : tid) (p p' : pc) (s s' : shared) :
  thread_step t p s = Some (p', s') ->
  in_cs p = true ->
  (in_cs p' = true /\ theta_mtx s' = theta_mtx s) \/
  (in_cs p' = false /\ theta_mtx s' = None).
Proof.
  intros H Hcs. step_cases p s H; try discriminate; auto.
Qed.

Lemma mutex_inv_init (theta0 : float3) : mutex_inv (init_state theta0).
Proof.
  intros t. simpl. split; discriminate.
Qed.

Lemma mutex_inv_step (st st' : state) :
  mutex_inv st -> step st st' -> mutex_inv st'.
Proof.
  intros Hinv [ev Hev] u. destruct ev as [t c junk | t]; simpl in Hev.
  - destruct (at_rest (pcs st t)) eqn:Hrest; [| discriminate].
    injection Hev as <-. simpl.
    destruct (Nat.eq_dec u t) as [-> | Hne].
    + rewrite set_pc_same.
      assert (Hout : in_cs (pcs st t) = false)
        by (destruct (pcs st t); simpl in *; congruence).
      assert (He : in_cs (entry c junk) = false) by (destruct c; reflexivity).
      rewrite He. split; [discriminate |].
      intros Hm. apply Hinv in Hm. congruence.
    + rewrite set_pc_other by exact Hne. apply Hinv.
  - destruct (thread_step t (pcs st t) (mem st)) as [[p s] |] eqn:Hs;
      [| discriminate].
    injection Hev as <-. simpl.
    destruct (in_cs (pcs st t)) eqn:Hcs.
    + pose proof (proj1 (Hinv t) Hcs) as Hown.
      destruct (thread_step_inside _ _ _ _ _ Hs Hcs) as [[Hp Hm] | [Hp Hm]].
      * destruct (Nat.eq_dec u t) as [-> | Hne].
        -- rewrite set_pc_same, Hp, Hm, Hown. tauto.
        -- rewrite set_pc_other, Hm by exact Hne. apply Hinv.
      * destruct (Nat.eq_dec u t) as [-> | Hne].
        -- rewrite set_pc_same, Hp, Hm. split; discriminate.
        -- rewrite set_pc_other, Hm by exact Hne.
           split; [| discriminate].
           intros Hu. apply Hinv in Hu. congruence.
    + destruct (thread_step_enter _ _ _ _ _ Hs Hcs)
        as [[Hp Hm] | (Hp & Hfree & Hm)].
      * destruct (Nat.eq_dec u t) as [-> | Hne].
        -- rewrite set_pc_same, Hp, Hm. rewrite <- Hcs. apply Hinv.
        -- rewrite set_pc_other, Hm by exact Hne. apply Hinv.
      * destruct (Nat.eq_dec u t) as [-> | Hne].
        -- rewrite set_pc_same, Hp, Hm. tauto.
        -- rewrite set_pc_other, Hm by exact Hne.
           split.
           ++ intros Hu. apply Hinv in Hu. congruence.
           ++ intros Hu. congruence.
Qed.

Lemma steps_trans (a b c : state) : steps a b -> steps b c -> steps a c.
Proof.
  intros Hab Hbc. induction Hbc as [| c1 c2 _ IH Hs].
  - exact Hab.
  - exact (steps_snoc _ _ _ IH Hs).
Qed.

Lemma steps_one (a b : state) : step a b -> steps a b.
Proof.
  intros Hs. exact (steps_snoc _ _ _ (steps_refl a) Hs).
Qed.

Lemma do_events_steps (evs : list event) (st st' : state) :
  do_events evs st = Some st' -> steps st st'.
Proof.
  revert st. induction evs as [| ev evs IH]; intros st H; simpl in H.
  - injection H as <-. apply steps_refl.
  - destruct (do_event ev st) as [st1 |] eqn:Hev; [| discriminate].
    apply steps_trans with st1.
    + apply steps_one. now exists ev.
    + now apply IH.
Qed.

Lemma reachable_mutex_inv (theta0 : float3) (st : state) :
  reachable theta0 st -> mutex_inv st.
Proof.
  intros Hr. induction Hr as [| st1 st2 _ IH Hs].
  - apply mutex_inv_init.
  - exact (mutex_inv_step _ _ IH Hs).
Qed.

(** With the mutex free, no thread is inside a critical section. *)
Lemma free_quiescent (theta0 : float3) (st : state) :
  reachable theta0 st -> theta_mtx (mem st) = None -> quiescent st.
Proof.
  intros Hr Hfree. split; [exact Hfree |].
  intros t. destruct (in_cs (pcs st t)) eqn:Hcs; [| reflexivity].
  apply (reachable_mutex_inv _ _ Hr) in Hcs. congruence.
Qed.

(** [theta] changes only by a step of the thread that holds the
    mutex. *)
Lemma theta_written_under_mutex (theta0 : float3) (st st' : state)
    (ev : event) :
  reachable theta0 st ->
  do_event ev st = Some st' ->
  theta_of st' <> theta_of st ->
  exists t : tid, ev = StepEv t /\ theta_mtx (mem st) = Some t /\
                  theta_mtx (mem st') = Some t.
Proof.
  intros Hr Hev Hneq.
  pose proof (reachable_mutex_inv _ _ Hr) as Hmut.
  destruct ev as [t c junk | t]; simpl in Hev.
  - destruct (at_rest (pcs st t)); [| discriminate].
    injection Hev as <-. now contradiction Hneq.
  - destruct (thread_step t (pcs st t) (mem st)) as [[p s] |] eqn:Hs;
      [| discriminate].
    injection Hev as <-. exists t. split; [reflexivity |].
    destruct (in_cs (pcs st t)) eqn:Hcs.
    + pose proof (proj1 (Hmut t) Hcs) as Hown. split; [exact Hown |].
      simpl. unfold theta_of in Hneq. simpl in Hneq.
      destruct (pcs st t); try discriminate Hcs; simpl in Hs;
        try destruct (first (obj (mem st)));
        inversion Hs; subst; simpl in *; trivial;
        now contradiction Hneq.
    + contradiction Hneq. unfold theta_of. simpl.
      exact (thread_step_outside _ _ _ _ _ Hs Hcs).
Qed.

Lemma solo_run_events (t : tid) (n : nat) (st : state) (p : pc) (s : shared) :
  solo_run t n (pcs st t) (mem st) = Some (p, s) ->
  exists st' : state,
    do_events (repeat (StepEv t) n) st = Some st' /\
    pcs st' t = p /\ mem st' = s /\
    forall u : tid, u <> t -> pcs st' u = pcs st u.
Proof.
  revert st. induction n as [| n IH]; intros st H; simpl in H.
  - injection H as <- <-. exists st. now repeat split.
  - destruct (thread_step t (pcs st t) (mem st)) as [[p1 s1] |] eqn:Hs;
      [| discriminate].
    destruct (IH {| pcs := set_pc t p1 (pcs st); mem := s1 |})
      as (st' & Hev & Hp & Hm & Ho).
    + simpl. now rewrite set_pc_same.
    + exists st'. simpl. rewrite Hs. repeat split; trivial.
      intros u Hu. rewrite (Ho u Hu). simpl. now apply set_pc_other.
Qed.

(** The steps of a call, run with no other thread in between from a
    state with the mutex free, do to the object what the sequential
    member function does, and release the mutex; [get_theta] returns
    [theta]. *)
Lemma solo_call_refines (t : tid) (c : call) (junk : F) (s : shared) :
  theta_mtx s = None ->
  exists (n : nat) (p : pc),
    solo_run t n (entry c junk) s =
    Some (p, {| obj := do_call (obj s) c; theta_mtx := None |}) /\
    at_rest p = true /\
    (c = GetTheta -> p = T_ret (theta (obj s))).
Proof.
  destruct s as [e m]. simpl. intros ->.
  destruct e as [[x y z] al fst ts0].
  destruct c as [g ts | a |]; simpl.
  - destruct fst.
    + exists 2, Idle. simpl. repeat split. discriminate.
    + exists 8, Idle. simpl. repeat split. discriminate.
  - destruct fst.
    + exists 8, Idle. simpl. repeat split. discriminate.
    + exists 5, Idle. simpl. repeat split. discriminate.
  - exists 5, (T_ret (mk_float3 x y z)). simpl. repeat split.
Qed.

(** So a call that runs from a state with the mutex free, with no step
    of another thread before it returns, is a call of the sequential
    model. *)
Lemma call_alone_is_sequential (st : state) (t : tid) (c : call) (junk : F) :
  theta_mtx (mem st) = None ->
  at_rest (pcs st t) = true ->
  exists st' : state,
    steps st st' /\
    obj (mem st') = do_call (obj (mem st)) c /\
    theta_mtx (mem st') = None /\
    at_rest (pcs st' t) = true /\
    (c = GetTheta -> pcs st' t = T_ret (theta (obj (mem st)))).
Proof.
  intros Hfree Hrest.
  destruct (solo_call_refines t c junk (mem st) Hfree)
    as (n & p & Hsolo & Hp & Hget).
  set (st0 := {| pcs := set_pc t (entry c junk) (pcs st); mem := mem st |}).
  assert (Hcall : do_event (CallEv t c junk) st = Some st0)
    by (simpl; now rewrite Hrest).
  destruct (solo_run_events t n st0 p
              {| obj := do_call (obj (mem st)) c; theta_mtx := None |})
    as (st' & Hev & Hpc & Hmem & _).
  { simpl. rewrite set_pc_same. exact Hsolo. }
  exists st'. rewrite Hmem, Hpc. simpl. repeat split; trivial.
  apply steps_trans with st0.
  - apply steps_one. now exists (CallEv t c junk).
  - exact (do_events_steps _ _ _ Hev).
Qed.

End Interleaving.
End ConcFacts.

(** ** The updates a run commits, and what get_theta sees of them *)

Module LinFacts.
Import Conc ConcFacts Lin.
Section Linearization.
Context {A : Arithmetic}.

Lemma run_to_reachable (theta0 : float3) (us : list update) (st : state) :
  run_to theta0 us st -> reachable theta0 st.
Proof.
  intros H. induction H as [| us st st' ev _ IH Hev].
  - apply steps_refl.
  - apply steps_snoc with st; [exact IH | now exists ev].
Qed.

(** Every interleaving is such a run. *)
Lemma reachable_has_run (theta0 : float3) (st : state) :
  reachable theta0 st -> exists us : list update, run_to theta0 us st.
Proof.
  intros H. induction H as [| st1 st2 _ IH Hstep].
  - exists []. apply run_init.
  - destruct IH as [us IH], Hstep as [ev Hev].
    exists (us ++ commit ev st1). now apply run_event.
Qed.

Lemma do_events_run_to (theta0 : float3) (evs : list event)
    (us : list update) (st st' : state) :
  run_to theta0 us st ->
  do_events evs st = Some st' ->
  run_to theta0 (us ++ committed evs st) st'.
Proof.
  revert us st. induction evs as [| ev evs IH]; intros us st Hr H; simpl in *.
  - injection H as <-. now rewrite app_nil_r.
  - destruct (do_event ev st) as [st1 |] eqn:Hev; [| discriminate].
    rewrite app_assoc. apply IH; [| exact H].
    now apply run_event.
Qed.

Lemma apply_updates_app (us us' : list update) (e : rotation_estimator) :
  apply_updates (us ++ us') e = apply_updates us' (apply_updates us e).
Proof.
  unfold apply_updates. apply fold_left_app.
Qed.

(** An update reads the members of [core] only. *)
Lemma apply_update_core (e1 e2 : rotation_estimator) (u : update) :
  core e1 = core e2 -> core (apply_update e1 u) = core (apply_update e2 u).
Proof.
  unfold core. intros H. injection H as Ht Hf Ha.
  destruct u as [ga | acc]; simpl.
  - now rewrite Ht, Hf, Ha.
  - rewrite Hf. destruct (first e2); simpl; now rewrite ?Ht, ?Ha.
Qed.

(** A step outside the critical sections leaves [core] alone. *)
Lemma step_core_outside (t : tid) (p p' : pc) (s s' : shared) :
  thread_step t p s = Some (p', s') ->
  in_cs p = false ->
  core (obj s') = core (obj s).
Proof.
  intros H Hcs.
  destruct p; try discriminate Hcs; simpl in H; unfold lock in H;
    try destruct (theta_mtx s); try discriminate H;
    injection H as <- <-; reflexivity.
Qed.

Lemma thread_step_some_in_cs (t : tid) (p : pc) (s : shared) :
  in_cs p = true -> thread_step t p s <> None.
Proof.
  intros Hcs. destruct p; try discriminate Hcs; discriminate.
Qed.

(** The rest of a critical section reads the members of [core]
    only. *)
Lemma finish_core (t : tid) (p : pc) (s1 s2 : shared) :
  core (obj s1) = core (obj s2) ->
  core (obj (finish 8 t p s1)) = core (obj (finish 8 t p s2)).
Proof.
  destruct s1 as [[th1 al1 fst1 ts1] m1], s2 as [[th2 al2 fst2 ts2] m2].
  unfold core. simpl. intros Hc. injection Hc as -> -> ->.
  destruct p, fst2; reflexivity.
Qed.

Lemma finish_outside (n : nat) (t : tid) (p : pc) (s : shared) :
  in_cs p = false -> finish n t p s = s.
Proof.
  intros H. destruct n; simpl; [reflexivity | now rewrite H].
Qed.

(** No critical section is longer than seven steps. *)
Lemma finish_fuel (t : tid) (p : pc) (s : shared) :
  finish 7 t p s = finish 8 t p s.
Proof.
  destruct p; try reflexivity; simpl;
    destruct (first (obj s)); reflexivity.
Qed.

Lemma finish_step (t : tid) (p p' : pc) (s s' : shared) :
  in_cs p = true ->
  thread_step t p s = Some (p', s') ->
  finish 8 t p s = finish 8 t p' s'.
Proof.
  intros Hcs H. rewrite <- (finish_fuel t p' s').
  change (finish 8 t p s) with
    (if in_cs p then
       match thread_step t p s with
       | Some (p1, s1) => finish 7 t p1 s1
       | None => s
       end
     else s).
  now rewrite Hcs, H.
Qed.

(** The steps of a critical section, run to the end, are the update
    as a whole. *)
Lemma finish_gyro (t : tid) (ga : float3) (s : shared) :
  core (obj (finish 8 t (G_add_x ga)
               {| obj := obj s; theta_mtx := Some t |})) =
  core (apply_update (obj s) (UGyro ga)).
Proof.
  reflexivity.
Qed.

Lemma finish_accel (t : tid) (acc : float3) (s : shared) :
  core (obj (finish 8 t (A_test acc)
               {| obj := obj s; theta_mtx := Some t |})) =
  core (apply_update (obj s) (UAccel acc)).
Proof.
  destruct s as [[th al fst ts] m]. destruct fst; reflexivity.
Qed.

Lemma finish_reader (t : tid) (s : shared) :
  obj (finish 8 t T_read_x {| obj := obj s; theta_mtx := Some t |}) = obj s.
Proof.
  reflexivity.
Qed.

(** What an update does to [theta], [first] and [alpha] is what the
    member function does to them. *)
Lemma apply_update_process_accel (a : rs2_vector) (junk : F)
    (e : rotation_estimator) :
  core (apply_update e (UAccel (mk_float3 (accel_pitch a) junk (accel_roll a))))
  = core (process_accel a e).
Proof.
  destruct e as [th al fst ts0]. destruct fst; reflexivity.
Qed.

Lemma apply_update_process_gyro (g : rs2_vector) (ts : D)
    (e : rotation_estimator) :
  first e = false ->
  core (apply_update e
          (UGyro (float3_mul (mk_float3 (v_x g) (v_y g) (v_z g))
                             (d2f (dt_gyro ts (last_ts_gyro e))))))
  = core (process_gyro g ts e).
Proof.
  destruct e as [th al fst ts0]. simpl. intros ->. reflexivity.
Qed.

Lemma commit_held (t u : tid) (st : state) :
  theta_mtx (mem st) = Some u -> commit (StepEv t) st = [].
Proof.
  intros H. unfold commit. rewrite H. now destruct (pcs st t).
Qed.

Lemma commit_no_lock (t : tid) (st : state) (p : pc) (s : shared) :
  thread_step t (pcs st t) (mem st) = Some (p, s) ->
  in_cs p = false ->
  commit (StepEv t) st = [].
Proof.
  intros H Hp. unfold commit.
  destruct (pcs st t); trivial; simpl in H; unfold lock in H;
    destruct (theta_mtx (mem st)); trivial;
    injection H as <- <-; discriminate Hp.
Qed.

(** The updates committed so far, each applied as a whole and in the
    order of their locks, give the members the object has, or will have
    when the thread that holds the mutex releases it. *)
Lemma lin_inv (theta0 : float3) (us : list update) (st : state) :
  run_to theta0 us st ->
  core (pending st) = core (apply_updates us (estimator_init theta0)).
Proof.
  intros H. induction H as [| us st st' ev Hrun IH Hev]; [reflexivity |].
  pose proof (reachable_mutex_inv _ _ (run_to_reachable _ _ _ Hrun)) as Hmut.
  rewrite apply_updates_app.
  destruct ev as [t c junk | t]; simpl in Hev.
  - (* a call *)
    destruct (at_rest (pcs st t)) eqn:Hrest; [| discriminate].
    injection Hev as <-. cbn [commit apply_updates fold_left].
    rewrite <- IH. unfold pending. cbn [mem pcs].
    destruct (theta_mtx (mem st)) as [u |] eqn:Hm; [| reflexivity].
    rewrite set_pc_other; [reflexivity |].
    intros ->. apply Hmut in Hm.
    destruct (pcs st t); discriminate.
  - (* a step of thread t *)
    destruct (thread_step t (pcs st t) (mem st)) as [[p s] |] eqn:Hs;
      [| discriminate].
    injection Hev as <-.
    destruct (in_cs (pcs st t)) eqn:Hcs.
    + (* inside its critical section *)
      pose proof (proj1 (Hmut t) Hcs) as Hown.
      rewrite (commit_held t t st Hown). cbn [apply_updates fold_left].
      rewrite <- IH.
      unfold pending at 2. rewrite Hown.
      rewrite (finish_step _ _ _ _ _ Hcs Hs).
      unfold pending. cbn [mem pcs].
      destruct (thread_step_inside _ _ _ _ _ Hs Hcs) as [[Hp Hm] | [Hp Hm]].
      * rewrite Hm, Hown, set_pc_same. reflexivity.
      * rewrite Hm. now rewrite finish_outside.
    + destruct (thread_step_enter _ _ _ _ _ Hs Hcs)
        as [[Hp Hm] | (Hp & Hfree & Hm)].
      * (* outside the critical sections *)
        rewrite (commit_no_lock t st p s Hs Hp). cbn [apply_updates fold_left].
        rewrite <- IH.
        pose proof (step_core_outside _ _ _ _ _ Hs Hcs) as Hc.
        unfold pending. cbn [mem pcs]. rewrite Hm.
        destruct (theta_mtx (mem st)) as [u |] eqn:Hheld; [| exact Hc].
        rewrite set_pc_other.
        -- now apply finish_core.
        -- intros ->. apply Hmut in Hheld. congruence.
      * (* the lock: the update is committed *)
        unfold pending in IH. rewrite Hfree in IH.
        unfold pending, commit. cbn [mem pcs]. rewrite Hm, set_pc_same, Hfree.
        destruct (pcs st t); try discriminate Hcs; simpl in Hs;
          unfold lock in Hs; rewrite ?Hfree in Hs;
          try discriminate Hs;
          injection Hs as <- <-; try discriminate Hp;
          try (destruct (first (obj (mem st))); discriminate Hp);
          cbn [apply_updates fold_left].
        -- rewrite finish_gyro. now apply apply_update_core.
        -- rewrite finish_accel. now apply apply_update_core.
        -- rewrite finish_reader. exact IH.
Qed.

(** A later step keeps the snapshot a call of [get_theta] has taken. *)
Lemma snapshot_step (theta0 : float3) (us l : list update) (st st' : state)
    (t : tid) (r : float3) :
  snapshot theta0 us st t r -> step st st' ->
  snapshot theta0 (us ++ l) st' t r.
Proof.
  intros (us1 & us2 & st1 & -> & Hr & Hs & Hpc & Hm & Hth) Hstep.
  exists us1, (us2 ++ l), st1. rewrite app_assoc. repeat split; trivial.
  exact (steps_snoc _ _ _ Hs Hstep).
Qed.

(** A step that moves neither thread [u] nor [theta] keeps what is
    known about [u]. *)
Lemma reader_inv_frame (theta0 : float3) (us l : list update)
    (st st' : state) (u : tid) :
  pcs st' u = pcs st u ->
  theta_of st' = theta_of st ->
  step st st' ->
  reader_inv theta0 us st u -> reader_inv theta0 (us ++ l) st' u.
Proof.
  intros Hpc Hth Hstep. unfold reader_inv. rewrite Hpc, Hth.
  destruct (pcs st u); trivial; intuition eauto using snapshot_step.
Qed.

(** A step leaves the value a thread has already returned with. *)
Lemma reader_inv_at_rest (theta0 : float3) (us l : list update)
    (st st' : state) (u : tid) :
  pcs st' u = pcs st u ->
  in_cs (pcs st u) = false ->
  step st st' ->
  reader_inv theta0 us st u -> reader_inv theta0 (us ++ l) st' u.
Proof.
  intros Hpc Hcs Hstep. unfold reader_inv. rewrite Hpc.
  destruct (pcs st u); trivial; try discriminate Hcs.
  intros H. exact (snapshot_step _ _ _ _ _ _ _ H Hstep).
Qed.

Lemma reader_inv_step (theta0 : float3) (us : list update) (st st' : state)
    (ev : event) :
  run_to theta0 us st ->
  (forall t : tid, reader_inv theta0 us st t) ->
  do_event ev st = Some st' ->
  forall t : tid, reader_inv theta0 (us ++ commit ev st) st' t.
Proof.
  intros Hrun Hinv Hdo u.
  pose proof (reachable_mutex_inv _ _ (run_to_reachable _ _ _ Hrun)) as Hmut.
  assert (Hstep : step st st') by now exists ev.
  pose proof Hdo as Hev.
  destruct ev as [t c junk | t]; simpl in Hev.
  - (* a call *)
    destruct (at_rest (pcs st t)) eqn:Hrest; [| discriminate].
    injection Hev as <-.
    destruct (Nat.eq_dec u t) as [-> | Hne].
    + unfold reader_inv. simpl pcs. rewrite set_pc_same. now destruct c.
    + apply reader_inv_frame with st; trivial.
      simpl. now apply set_pc_other.
  - (* a step of thread t *)
    destruct (thread_step t (pcs st t) (mem st)) as [[p s] |] eqn:Hs;
      [| discriminate].
    injection Hev as <-.
    destruct (Nat.eq_dec u t) as [-> | Hne].
    + (* the thread that moved *)
      specialize (Hinv t). unfold reader_inv in *. simpl pcs.
      rewrite set_pc_same. unfold theta_of in *. simpl mem.
      generalize (commit (StepEv t) st). intros l.
      destruct (pcs st t) eqn:Hpc; simpl in Hs; try discriminate Hs;
        try (unfold lock in Hs;
             destruct (theta_mtx (mem st)) eqn:Hm; [discriminate Hs |]);
        injection Hs as <- <-; simpl; try exact I;
        try (destruct (first (obj (mem st))); exact I).
      * (* T_lock: the snapshot is taken here *)
        exists us, l, st. repeat split; trivial. now apply steps_one.
      * split; [| reflexivity].
        exact (snapshot_step _ _ _ _ _ _ _ Hinv Hstep).
      * destruct Hinv as [Hsn Hx]. repeat split; trivial.
        exact (snapshot_step _ _ _ _ _ _ _ Hsn Hstep).
      * destruct Hinv as (Hsn & -> & ->).
        assert (Heq : mk_float3 (f3_x (theta (obj (mem st))))
                        (f3_y (theta (obj (mem st))))
                        (f3_z (theta (obj (mem st)))) =
                      theta (obj (mem st)))
          by now destruct (theta (obj (mem st))).
        rewrite Heq in Hstep |- *. split; [| reflexivity].
        exact (snapshot_step _ _ _ _ _ _ _ Hsn Hstep).
      * destruct Hinv as [Hsn _].
        exact (snapshot_step _ _ _ _ _ _ _ Hsn Hstep).
    + (* another thread *)
      assert (Hpc : pcs {| pcs := set_pc t p (pcs st); mem := s |} u =
                    pcs st u) by (simpl; now apply set_pc_other).
      destruct (in_cs (pcs st u)) eqn:Hcs.
      * apply reader_inv_frame with st; trivial.
        unfold theta_of. simpl.
        apply (thread_step_outside _ _ _ _ _ Hs).
        destruct (in_cs (pcs st t)) eqn:Hct; [| reflexivity].
        apply Hmut in Hcs. apply Hmut in Hct. congruence.
      * now apply reader_inv_at_rest with st.
Qed.

Lemma run_to_reader_inv (theta0 : float3) (us : list update) (st : state) :
  run_to theta0 us st -> forall t : tid, reader_inv theta0 us st t.
Proof.
  intros H. induction H as [| us st st' ev Hrun IH Hev].
  - intros t. exact I.
  - exact (reader_inv_step _ _ _ _ _ Hrun IH Hev).
Qed.

(** With the mutex free, the object holds what the committed updates,
    each applied as a whole, leave. *)
Lemma free_theta (theta0 : float3) (us : list update) (st : state) :
  run_to theta0 us st ->
  theta_mtx (mem st) = None ->
  theta_of st = theta (apply_updates us (estimator_init theta0)).
Proof.
  intros Hrun Hfree. pose proof (lin_inv _ _ _ Hrun) as H.
  unfold pending in H. rewrite Hfree in H. unfold core in H.
  now injection H.
Qed.

End Linearization.
End LinFacts.

(** * The claims *)

Import Exact.
Local Open Scope R_scope.

(** C1, as amended: for every angular-rate sample other than the first
    ever received that arrives once the estimator is initialized (the
    flag [first] is false, that is, after a call of [process_accel]),
    [process_gyro] computes dt = (ts - lastTimestamp) / 1000.0 with
    lastTimestamp the timestamp of the previous angular-rate sample,
    sets [last_ts_gyro] to ts and adds (-(v.z*dt), -(v.y*dt), v.x*dt)
    to [theta]; so of two consecutive such samples with the same
    vector v, the second adds that triple with dt = (ts' - ts) / 1000.0.

    The history of the estimator is [pre], then the previous
    angular-rate sample (v0, ts0), then [post], which holds no call of
    [process_gyro]. *)
Theorem gyro_integrates_once_initialized {A : Arithmetic}
    (theta0 : float3) (pre post : list call) (v0 : rs2_vector) (ts0 : D)
    (v : rs2_vector) (ts ts' : D) :
  existsb is_accel (pre ++ Gyro v0 ts0 :: post) = true ->
  existsb is_gyro post = false ->
  let e := run (pre ++ Gyro v0 ts0 :: post) (estimator_init theta0) in
  let dt := d2f (ddiv (dsub ts ts0) d1000) in
  let e1 := process_gyro v ts e in
  let dt' := d2f (ddiv (dsub ts' ts) d1000) in
  let e2 := process_gyro v ts' e1 in
  last_ts_gyro e = ts0 /\
  last_ts_gyro e1 = ts /\
  theta e1 = mk_float3 (f3_x (theta e) + - (v_z v * dt))%flt
                       (f3_y (theta e) + - (v_y v * dt))%flt
                       (f3_z (theta e) + v_x v * dt)%flt /\
  last_ts_gyro e2 = ts' /\
  theta e2 = mk_float3 (f3_x (theta e1) + - (v_z v * dt'))%flt
                       (f3_y (theta e1) + - (v_y v * dt'))%flt
                       (f3_z (theta e1) + v_x v * dt')%flt.
Proof.
  intros Hacc Hpost e dt e1 dt' e2.
  assert (Hf : first e = false).
  { unfold e. rewrite run_init_first, Hacc. reflexivity. }
  assert (Hl : last_ts_gyro e = ts0).
  { unfold e. rewrite run_last_ts. now apply latest_ts_last_gyro. }
  assert (H1 : e1 = _) by exact (process_gyro_init v ts e Hf).
  assert (Hf1 : first e1 = false).
  { unfold e1. now rewrite process_gyro_first. }
  assert (H2 : e2 = _) by exact (process_gyro_init v ts' e1 Hf1).
  assert (Hl1 : last_ts_gyro e1 = ts) by apply process_gyro_last_ts.
  split; [exact Hl |]. split; [exact Hl1 |]. split; [| split].
  - rewrite H1. simpl. rewrite Hl. reflexivity.
  - apply process_gyro_last_ts.
  - rewrite H2. simpl. rewrite Hl1. reflexivity.
Qed.

Lemma gyro_integrates_once_initialized_witness :
  let pre := [Accel (mk_vector 0 0 1)] in
  let post := [GetTheta] in
  let e := run (pre ++ Gyro (mk_vector 3 2 1) 1000 :: post)
             (estimator_init (mk_float3 0 0 0)) in
  existsb is_accel (pre ++ Gyro (mk_vector 3 2 1) 1000 :: post) = true /\
  existsb is_gyro post = false /\
  theta (process_gyro (mk_vector 1 2 3) 2500 e) =
  mk_float3 (f3_x (theta e) + - (3 * ((2500 - 1000) / 1000)))
            (f3_y (theta e) + - (2 * ((2500 - 1000) / 1000)))
            (f3_z (theta e) + 1 * ((2500 - 1000) / 1000)).
Proof.
  intros pre post e.
  split; [reflexivity |]. split; [reflexivity |].
  apply (gyro_integrates_once_initialized (@mk_float3 RArith 0 0 0)
           pre post (@mk_vector RArith 3 2 1) 1000
           (@mk_vector RArith 1 2 3) 2500 3000);
    reflexivity.
Defined.

(** C1, as stated, fails on the second angular-rate sample of an
    estimator that has not seen an acceleration sample yet: with the
    rate (1, 1, 1) at 0 ms and again at 1000 ms, the claim has [theta]
    move by (-1, -1, 1), and the code leaves it where it was. *)
Lemma second_gyro_sample_before_accel_ignored :
  let v := mk_vector 1 1 1 in
  let e1 := process_gyro v 0%R (estimator_init (mk_float3 0 0 0)) in
  let e2 := process_gyro v 1000%R e1 in
  let dt := ((1000 - 0) / 1000)%R in
  theta e2 = theta e1 /\
  theta e2 <> mk_float3 (f3_x (theta e1) + - (v_z v * dt))%R
                        (f3_y (theta e1) + - (v_y v * dt))%R
                        (f3_z (theta e1) + v_x v * dt)%R.
Proof.
  cbn. split.
  - reflexivity.
  - intros H. injection H as Hx _ _. lra.
Qed.

(** C2: the first call of [process_accel] an estimator receives,
    whatever calls of the other two functions came before it, sets
    [theta] to (atan2(a.x, sqrt(a.y*a.y + a.z*a.z)), PI, atan2(a.y, a.z));
    in exact arithmetic the sample (0, 0, 1) gives pitch 0, yaw pi and
    roll 0. *)
Theorem first_accel_call_sets_theta :
  (forall (A : Arithmetic) (theta0 : float3) (cs : list call) (a : rs2_vector),
      existsb is_accel cs = false ->
      theta (process_accel a (run cs (estimator_init theta0))) =
      mk_float3
        (d2f (c_atan2 (f2d (v_x a))
                (c_sqrt (f2d (v_y a * v_y a + v_z a * v_z a)%flt))))
        fPI
        (d2f (c_atan2 (f2d (v_y a)) (f2d (v_z a))))) /\
  (forall (theta0 : float3) (cs : list call),
      existsb is_accel cs = false ->
      theta (process_accel (mk_vector 0 0 1) (run cs (estimator_init theta0))) =
      mk_float3 0 PI 0).
Proof.
  assert (Hgen : forall (A : Arithmetic) theta0 cs a,
             existsb is_accel cs = false ->
             theta (process_accel a (run cs (estimator_init theta0))) =
             mk_float3 (accel_pitch a) fPI (accel_roll a)).
  { intros A theta0 cs a Hn. apply process_accel_uninit.
    rewrite run_init_first, Hn. reflexivity. }
  split.
  - exact Hgen.
  - intros theta0 cs Hn. rewrite (Hgen RArith theta0 cs _ Hn).
    destruct accel_down_angles as [-> ->]. reflexivity.
Qed.

Lemma first_accel_call_sets_theta_witness :
  let cs := [Gyro (mk_vector 1 2 3) 10; GetTheta;
             Gyro (mk_vector 3 2 1) 20] in
  existsb is_accel cs = false /\
  theta (process_accel (mk_vector 0 0 1)
           (run cs (estimator_init (mk_float3 7 8 9)))) =
  mk_float3 0 PI 0.
Proof.
  intros cs. split.
  - reflexivity.
  - apply (proj2 first_accel_call_sets_theta (@mk_float3 RArith 7 8 9) cs).
    reflexivity.
Defined.

(** C3: a call of [process_gyro] on an estimator that has not received
    a call of [process_accel] finds the flag [first] set, leaves [theta]
    (still the value it had at construction), [alpha] and [first] as
    they are and stores the timestamp; the flag of an estimator is set
    exactly as long as its history holds no call of [process_accel]. *)
Theorem gyro_before_accel_keeps_theta {A : Arithmetic}
    (theta0 : float3) (cs : list call) (v : rs2_vector) (ts : D) :
  existsb is_accel cs = false ->
  let e := run cs (estimator_init theta0) in
  first e = true /\
  process_gyro v ts e =
  {| theta := theta e; alpha := alpha e; first := true;
     last_ts_gyro := ts |} /\
  theta (process_gyro v ts e) = theta0 /\
  (forall cs' : list call,
      first (run cs' (estimator_init theta0)) = negb (existsb is_accel cs')).
Proof.
  intros Hn e.
  assert (Hf : first e = true).
  { unfold e. rewrite run_init_first, Hn. reflexivity. }
  split; [exact Hf |]. split; [| split].
  - now apply process_gyro_uninit.
  - rewrite process_gyro_uninit by exact Hf. simpl.
    unfold e. now rewrite run_no_accel_theta.
  - intros cs'. apply run_init_first.
Qed.

Lemma gyro_before_accel_keeps_theta_witness :
  let cs := [Gyro (mk_vector 1 2 3) 10; GetTheta] in
  existsb is_accel cs = false /\
  theta (process_gyro (mk_vector 4 5 6) 20
           (run cs (estimator_init (mk_float3 7 8 9)))) =
  mk_float3 7 8 9.
Proof.
  intros cs. split.
  - reflexivity.
  - apply (gyro_before_accel_keeps_theta (@mk_float3 RArith 7 8 9) cs
             (@mk_vector RArith 4 5 6) 20).
    reflexivity.
Defined.

(** C4: for every pose, [calc_transform] gives sixteen cells in
    column-major order; the cell of row r and column c of the 3x3 block
    is the textbook rotation matrix of the quaternion with columns 0
    and 2 negated, cells 12 to 14 hold the translation, and the last
    row is (0, 0, 0, 1).  In exact arithmetic the quaternion
    (0, 0, 0, 1) with the zero translation gives the diagonal matrix
    (-1, 1, -1, 1). *)
Theorem calc_transform_layout :
  (forall (A : Arithmetic) (p : rs2_pose) (r c : nat),
      (r < 3)%nat -> (c < 3)%nat ->
      let m := calc_transform p in
      length m = 16%nat /\
      cell m r c = flip_col c (quat_rotation_matrix (rotation p) r c) /\
      nth 12 m f0 = v_x (translation p) /\
      nth 13 m f0 = v_y (translation p) /\
      nth 14 m f0 = v_z (translation p) /\
      nth 3 m f1 = f0 /\ nth 7 m f1 = f0 /\ nth 11 m f1 = f0 /\
      nth 15 m f0 = f1) /\
  calc_transform (mk_pose (mk_vector 0 0 0) (mk_quaternion 0 0 0 1)) =
  [ -1; 0; 0; 0;
    0; 1; 0; 0;
    0; 0; -1; 0;
    0; 0; 0; 1 ].
Proof.
  split.
  - intros A p r c Hr Hc m. split; [reflexivity |].
    split; [now apply calc_transform_rotation |].
    repeat split.
  - unfold calc_transform. simpl.
    repeat (apply f_equal2; [lra |]). reflexivity.
Qed.

Lemma calc_transform_layout_witness :
  (1 < 3)%nat /\ (2 < 3)%nat /\
  cell (calc_transform (mk_pose (mk_vector 5 6 7) (mk_quaternion 0 1 0 0)))
       1 2 =
  - quat_rotation_matrix (mk_quaternion 0 1 0 0) 1 2.
Proof.
  split; [lia |]. split; [lia |].
  apply (proj1 calc_transform_layout RArith
           (mk_pose (@mk_vector RArith 5 6 7)
                    (@mk_quaternion RArith 0 1 0 0)) 1%nat 2%nat);
    lia.
Defined.

(** C5: on an estimator that has received a call of [process_accel],
    [alpha] is 0.98 and a further call sets theta.x to
    theta.x*alpha + accelPitch*(1 - alpha) and theta.z to
    theta.z*alpha + accelRoll*(1 - alpha), the two angles computed from
    the sample with atan2; theta.y, [alpha], [first] and
    [last_ts_gyro] stay as they are. *)
Theorem accel_blends_once_initialized {A : Arithmetic}
    (theta0 : float3) (cs : list call) (a : rs2_vector) :
  existsb is_accel cs = true ->
  let e := run cs (estimator_init theta0) in
  let al := d2f d098 in
  let accelPitch :=
    d2f (c_atan2 (f2d (v_x a))
           (c_sqrt (f2d (v_y a * v_y a + v_z a * v_z a)%flt))) in
  let accelRoll := d2f (c_atan2 (f2d (v_y a)) (f2d (v_z a))) in
  process_accel a e =
  {| theta := mk_float3 (f3_x (theta e) * al + accelPitch * (f1 - al))%flt
                        (f3_y (theta e))
                        (f3_z (theta e) * al + accelRoll * (f1 - al))%flt;
     alpha := al; first := false; last_ts_gyro := last_ts_gyro e |}.
Proof.
  intros Hacc e al accelPitch accelRoll.
  assert (Hf : first e = false).
  { unfold e. rewrite run_init_first, Hacc. reflexivity. }
  assert (Ha : alpha e = al).
  { unfold e. rewrite run_alpha. reflexivity. }
  rewrite (process_accel_init a e Hf), Ha. reflexivity.
Qed.

Lemma accel_blends_once_initialized_witness :
  let cs := [Accel (mk_vector 0 0 1); Gyro (mk_vector 1 2 3) 10] in
  existsb is_accel cs = true /\
  f3_y (theta (process_accel (mk_vector 1 0 0)
                 (run cs (estimator_init (mk_float3 7 8 9))))) =
  f3_y (theta (run cs (estimator_init (mk_float3 7 8 9)))).
Proof.
  intros cs. split.
  - reflexivity.
  - rewrite (accel_blends_once_initialized (@mk_float3 RArith 7 8 9) cs
               (@mk_vector RArith 1 0 0)).
    + reflexivity.
    + reflexivity.
Defined.

(** C6: the first call of [process_gyro] on a freshly constructed
    estimator (nothing but calls of [get_theta] may have come before
    it) stores the timestamp in [last_ts_gyro] and changes nothing
    else: [theta] is the value it had at construction. *)
Theorem first_gyro_call_records_timestamp {A : Arithmetic}
    (theta0 : float3) (cs : list call) (v : rs2_vector) (ts : D) :
  forallb is_get_theta cs = true ->
  let e := run cs (estimator_init theta0) in
  e = estimator_init theta0 /\
  theta (process_gyro v ts e) = theta e /\
  process_gyro v ts e =
  {| theta := theta0; alpha := d2f d098; first := true;
     last_ts_gyro := ts |}.
Proof.
  intros Hcs e.
  assert (He : e = estimator_init theta0)
    by (unfold e; now apply run_get_theta_only).
  rewrite He. repeat split.
Qed.

Lemma first_gyro_call_records_timestamp_witness :
  let cs := [GetTheta; GetTheta] in
  forallb is_get_theta cs = true /\
  process_gyro (mk_vector 1 2 3) 10 (run cs (estimator_init (mk_float3 7 8 9))) =
  {| theta := mk_float3 7 8 9; alpha := 98 / 100; first := true;
     last_ts_gyro := 10 |}.
Proof.
  intros cs. split.
  - reflexivity.
  - apply (first_gyro_call_records_timestamp (@mk_float3 RArith 7 8 9) cs
             (@mk_vector RArith 1 2 3) 10).
    reflexivity.
Defined.




(** C8: in every interleaving of the steps of any number of threads
    calling the three member functions, the value a call of [get_theta]
    returns is the value [theta] had at the moment that call took the
    mutex; no thread stood then between a lock and its unlock, and that
    value is the one left by the updates of the calls of [process_gyro]
    and [process_accel] that took the mutex before, each applied as a
    whole and in the order of their locks.  So the three members
    returned are never those of a partially updated [theta]. *)
Theorem get_theta_returns_snapshot {A : Arithmetic}
    (theta0 : float3) (us : list Lin.update) (st : Conc.state)
    (t : Conc.tid) (r : float3) :
  Lin.run_to theta0 us st ->
  Conc.pcs st t = Conc.T_ret r ->
  exists (us1 us2 : list Lin.update) (st1 : Conc.state),
    us = us1 ++ us2 /\
    Lin.run_to theta0 us1 st1 /\ Conc.steps st1 st /\
    Conc.pcs st1 t = Conc.T_lock /\
    Conc.quiescent st1 /\
    Conc.theta_of st1 = r /\
    r = theta (Lin.apply_updates us1 (estimator_init theta0)).
Proof.
  intros Hrun Hpc.
  pose proof (LinFacts.run_to_reader_inv theta0 us st Hrun t) as Hinv.
  unfold Lin.reader_inv in Hinv. rewrite Hpc in Hinv.
  destruct Hinv as (us1 & us2 & st1 & Hus & Hr1 & Hs & Hl & Hm & Hth).
  exists us1, us2, st1.
  do 4 (split; [assumption |]).
  split; [| split; [exact Hth |]].
  - exact (ConcFacts.free_quiescent theta0 st1
             (LinFacts.run_to_reachable _ _ _ Hr1) Hm).
  - rewrite <- Hth. exact (LinFacts.free_theta theta0 us1 st1 Hr1 Hm).
Qed.

Lemma get_theta_returns_snapshot_witness :
  exists st : Conc.state,
    Conc.do_events Demo.demo_run (Conc.init_state Demo.theta0) = Some st /\
    Conc.pcs st Demo.reader = Conc.T_ret (mk_float3 0 PI 0) /\
    exists (us1 us2 : list Lin.update) (st1 : Conc.state),
      Lin.committed Demo.demo_run (Conc.init_state Demo.theta0) = us1 ++ us2 /\
      Lin.run_to Demo.theta0 us1 st1 /\ Conc.steps st1 st /\
      Conc.pcs st1 Demo.reader = Conc.T_lock /\
      Conc.quiescent st1 /\
      Conc.theta_of st1 = mk_float3 0 PI 0 /\
      mk_float3 0 PI 0 =
      theta (Lin.apply_updates us1 (estimator_init Demo.theta0)).
Proof.
  destruct (Conc.do_events Demo.demo_run (Conc.init_state Demo.theta0))
    as [st |] eqn:Hrun; [| cbn in Hrun; discriminate Hrun].
  exists st. split; [reflexivity |].
  assert (Hpc : Conc.pcs st Demo.reader = Conc.T_ret (mk_float3 0 PI 0)).
  { pose proof Hrun as Hst. cbn in Hst. injection Hst as <-. cbn.
    destruct accel_down_angles as [Hp Hq].
    unfold accel_pitch, accel_roll in Hp, Hq. cbn in Hp, Hq.
    rewrite Hp, Hq. reflexivity. }
  split; [exact Hpc |].
  exact (get_theta_returns_snapshot Demo.theta0 _ st Demo.reader _
           (LinFacts.do_events_run_to Demo.theta0 _ [] _ st
              (Lin.run_init Demo.theta0) Hrun)
           Hpc).
Defined.

(** In the run [Demo.blocked_run] the reader asks for the mutex while
    the producer holds it, with theta.x written and theta.y, theta.z
    not yet: the reader cannot take that step. *)
Example reader_waits_for_producer :
  Conc.do_events Demo.blocked_run (Conc.init_state Demo.theta0) = None.
Proof.
  reflexivity.
Qed.

(** C9: in exact arithmetic, on an initialized estimator, a call of
    [process_gyro] with the timestamp of the previous one has dt = 0
    and leaves [theta] as it is; the function applies the same formula
    to every timestamp, whether it is later than the previous one or
    not; an earlier timestamp gives a negative dt, and the angle delta
    it adds is the opposite of the one added for the timestamp as far
    after the previous one. *)
Theorem gyro_timestamp_not_validated
    (e : rotation_estimator) (v : rs2_vector) :
  first e = false ->
  let last := last_ts_gyro e in
  let delta (ts : R) : float3 :=
    mk_float3 (f3_x (theta (process_gyro v ts e)) - f3_x (theta e))
              (f3_y (theta (process_gyro v ts e)) - f3_y (theta e))
              (f3_z (theta (process_gyro v ts e)) - f3_z (theta e)) in
  dt_gyro last last = 0 /\
  theta (process_gyro v last e) = theta e /\
  (forall ts : R,
      delta ts = mk_float3 (- (v_z v * dt_gyro ts last))
                           (- (v_y v * dt_gyro ts last))
                           (v_x v * dt_gyro ts last) /\
      dt_gyro ts last = (ts - last) / 1000 /\
      last_ts_gyro (process_gyro v ts e) = ts) /\
  (forall ts : R, ts < last -> dt_gyro ts last < 0) /\
  (forall d : R,
      dt_gyro (last - d) last = - dt_gyro (last + d) last /\
      f3_x (delta (last - d)) = - f3_x (delta (last + d)) /\
      f3_y (delta (last - d)) = - f3_y (delta (last + d)) /\
      f3_z (delta (last - d)) = - f3_z (delta (last + d))).
Proof.
  intros Hf last delta.
  assert (Hdt : forall ts, dt_gyro ts last = (ts - last) / 1000)
    by reflexivity.
  assert (Hth : forall ts,
             theta (process_gyro v ts e) =
             mk_float3 (f3_x (theta e) + - (v_z v * dt_gyro ts last))
                       (f3_y (theta e) + - (v_y v * dt_gyro ts last))
                       (f3_z (theta e) + v_x v * dt_gyro ts last)).
  { intros ts. rewrite (process_gyro_init v ts e Hf). reflexivity. }
  assert (H0 : dt_gyro last last = 0).
  { rewrite Hdt. unfold Rdiv. rewrite Rminus_diag. apply Rmult_0_l. }
  split; [exact H0 |]. split; [| split; [| split]].
  - rewrite Hth, H0. destruct (theta e) as [x y z]. simpl.
    f_equal; ring.
  - intros ts. split; [| split].
    + unfold delta. rewrite Hth. simpl. f_equal; ring.
    + apply Hdt.
    + apply process_gyro_last_ts.
  - intros ts Hlt. rewrite Hdt. lra.
  - intros d.
    assert (Hd : dt_gyro (last - d) last = - dt_gyro (last + d) last).
    { rewrite !Hdt. lra. }
    split; [exact Hd |].
    unfold delta. rewrite !Hth, Hd. simpl. repeat split; lra.
Qed.

Lemma gyro_timestamp_not_validated_witness :
  let e := process_gyro (mk_vector 0 0 0) 500
             (process_accel (mk_vector 0 0 1)
                (estimator_init (mk_float3 0 0 0))) in
  first e = false /\
  theta (process_gyro (mk_vector 1 2 3) 500 e) = theta e.
Proof.
  intros e.
  assert (Hf : first e = false) by reflexivity.
  split; [exact Hf |].
  exact (proj1 (proj2
    (gyro_timestamp_not_validated e (@mk_vector RArith 1 2 3) Hf))).
Defined.

(** C10: [get_theta] returns [theta] and leaves the estimator as it
    found it, member by member; a second call right after the first
    returns the same value. *)
Theorem get_theta_changes_nothing {A : Arithmetic} (e : rotation_estimator) :
  let r1 := get_theta e in
  let r2 := get_theta (snd r1) in
  snd r1 = e /\
  theta (snd r1) = theta e /\ alpha (snd r1) = alpha e /\
  first (snd r1) = first e /\ last_ts_gyro (snd r1) = last_ts_gyro e /\
  fst r1 = theta e /\ fst r2 = fst r1.
Proof.
  unfold get_theta. simpl. repeat split.
Qed.

(** * Further properties *)

(** ** check_supported_stream *)

Section StreamFacts.
Import Streams.

Lemma stream_eqb_sym (a b : rs2_stream) : stream_eqb a b = stream_eqb b a.
Proof.
  destruct a, b; simpl; trivial. apply Nat.eqb_sym.
Qed.

(** The innermost loop returns POSE at the first pose profile, and
    otherwise adds to the flags what the sensor offers. *)
Lemma scan_profiles_spec (ps : sensor) (fg fa : bool) :
  scan_profiles ps fg fa =
  if existsb (stream_eqb RS2_STREAM_POSE) ps then inl POSE
  else inr (fg || existsb (stream_eqb RS2_STREAM_GYRO) ps,
            fa || existsb (stream_eqb RS2_STREAM_ACCEL) ps).
Proof.
  revert fg fa. induction ps as [| p ps IH]; intros fg fa; simpl.
  - now rewrite !orb_false_r.
  - rewrite IH. destruct p; simpl;
      destruct (existsb (stream_eqb RS2_STREAM_POSE) ps); trivial;
      now rewrite ?orb_true_r, ?orb_true_l.
Qed.

Lemma scan_sensors_spec (dev : device) (fg fa : bool) :
  scan_sensors dev fg fa =
  if has_stream RS2_STREAM_POSE dev then inl POSE
  else inr (fg || has_stream RS2_STREAM_GYRO dev,
            fa || has_stream RS2_STREAM_ACCEL dev).
Proof.
  unfold has_stream.
  revert fg fa. induction dev as [| s ss IH]; intros fg fa; simpl.
  - now rewrite !orb_false_r.
  - rewrite scan_profiles_spec.
    destruct (existsb (stream_eqb RS2_STREAM_POSE) s); simpl; trivial.
    rewrite IH.
    destruct (existsb (existsb (stream_eqb RS2_STREAM_POSE)) ss); trivial.
    now rewrite !orb_assoc.
Qed.

(** The value of the flags at the start of the loop over the devices
    does not matter. *)
Lemma scan_devices_flags (ds : list device) (fg fa : bool) :
  scan_devices ds fg fa = scan_devices ds false false.
Proof.
  destruct ds as [| d ds]; reflexivity.
Qed.

Lemma check_supported_stream_cons (d : device) (ds : list device) :
  check_supported_stream (d :: ds) =
  match device_result d with
  | ERROR => check_supported_stream ds
  | r => r
  end.
Proof.
  unfold check_supported_stream, device_result. simpl.
  rewrite scan_sensors_spec. simpl.
  destruct (has_stream RS2_STREAM_POSE d); trivial.
  destruct (has_stream RS2_STREAM_GYRO d && has_stream RS2_STREAM_ACCEL d);
    trivial.
  apply scan_devices_flags.
Qed.

Lemma device_result_usable (d : device) :
  usable d = match device_result d with ERROR => false | _ => true end.
Proof.
  unfold usable, device_result.
  destruct (has_stream RS2_STREAM_POSE d); trivial.
  now destruct (has_stream RS2_STREAM_GYRO d && has_stream RS2_STREAM_ACCEL d).
Qed.

Lemma check_supported_stream_skip (pre ds : list device) :
  existsb usable pre = false ->
  check_supported_stream (pre ++ ds) = check_supported_stream ds.
Proof.
  induction pre as [| d pre IH]; simpl; intros H.
  - reflexivity.
  - apply orb_false_elim in H as [Hd Hpre].
    rewrite check_supported_stream_cons.
    rewrite device_result_usable in Hd.
    destruct (device_result d); try discriminate Hd. now apply IH.
Qed.

End StreamFacts.

(** X1: [check_supported_stream] returns ERROR exactly when no
    connected device is usable, that is, when none has a pose stream
    and none has both a gyro and an accelerometer stream; a gyro
    stream on one device and an accelerometer stream on another do not
    make up for each other. *)
Theorem check_supported_stream_error (devs : list Streams.device) :
  Streams.check_supported_stream devs = Streams.ERROR <->
  existsb Streams.usable devs = false.
Proof.
  induction devs as [| d ds IH].
  - split; reflexivity.
  - rewrite check_supported_stream_cons. simpl.
    rewrite device_result_usable.
    destruct (Streams.device_result d); simpl.
    + exact IH.
    + split; discriminate.
    + split; discriminate.
Qed.

(** X2: the first usable device in the order of enumeration decides:
    the result is POSE if that device has a pose stream (whether or
    not it also has gyro and accelerometer streams) and IMU otherwise,
    whatever devices follow it. *)
Theorem first_usable_device_decides
    (pre post : list Streams.device) (d : Streams.device) :
  existsb Streams.usable pre = false ->
  Streams.usable d = true ->
  Streams.check_supported_stream (pre ++ d :: post) =
  if Streams.has_stream Streams.RS2_STREAM_POSE d
  then Streams.POSE else Streams.IMU.
Proof.
  intros Hpre Hd.
  rewrite (check_supported_stream_skip pre _ Hpre).
  rewrite check_supported_stream_cons.
  unfold Streams.usable in Hd. unfold Streams.device_result.
  destruct (Streams.has_stream Streams.RS2_STREAM_POSE d); trivial.
  simpl in Hd. now rewrite Hd.
Qed.

Lemma first_usable_device_decides_witness :
  let imu_only := [[Streams.RS2_STREAM_OTHER 0];
                   [Streams.RS2_STREAM_ACCEL; Streams.RS2_STREAM_GYRO]] in
  let gyro_only := [[Streams.RS2_STREAM_GYRO]] in
  let pose_dev := [[Streams.RS2_STREAM_OTHER 3; Streams.RS2_STREAM_POSE]] in
  existsb Streams.usable [gyro_only] = false /\
  Streams.usable imu_only = true /\
  Streams.check_supported_stream ([gyro_only] ++ imu_only :: [pose_dev]) =
  Streams.IMU.
Proof.
  intros imu_only gyro_only pose_dev.
  split; [reflexivity |]. split; [reflexivity |].
  apply (first_usable_device_decides [gyro_only] [pose_dev] imu_only);
    reflexivity.
Defined.

(** X3: enumerating the devices of two lists one after the other
    gives the result of the first list unless that is ERROR, and then
    the result of the second. *)
Theorem check_supported_stream_app (ds1 ds2 : list Streams.device) :
  Streams.check_supported_stream (ds1 ++ ds2) =
  match Streams.check_supported_stream ds1 with
  | Streams.ERROR => Streams.check_supported_stream ds2
  | r => r
  end.
Proof.
  induction ds1 as [| d ds1 IH]; simpl.
  - reflexivity.
  - rewrite !check_supported_stream_cons.
    destruct (Streams.device_result d); trivial.
Qed.

(** X4: the result depends on a device only through the stream types
    it offers: the grouping of the profiles into sensors, their order
    and their repetitions do not matter. *)
Theorem check_supported_stream_same_streams (ds ds' : list Streams.device) :
  Forall2 Streams.same_streams ds ds' ->
  Streams.check_supported_stream ds = Streams.check_supported_stream ds'.
Proof.
  intros H. induction H as [| d d' ds ds' Hd _ IH].
  - reflexivity.
  - rewrite !check_supported_stream_cons, IH.
    unfold Streams.device_result. now rewrite !Hd.
Qed.

Lemma check_supported_stream_same_streams_witness :
  let d := [[Streams.RS2_STREAM_GYRO]; [Streams.RS2_STREAM_ACCEL]] in
  let d' := [[Streams.RS2_STREAM_ACCEL; Streams.RS2_STREAM_GYRO;
              Streams.RS2_STREAM_ACCEL]] in
  Forall2 Streams.same_streams [d] [d'] /\
  Streams.check_supported_stream [d] = Streams.check_supported_stream [d'].
Proof.
  intros d d'.
  assert (H : Forall2 Streams.same_streams [d] [d']).
  { constructor; [| constructor]. intros s. destruct s; reflexivity. }
  split; [exact H |].
  exact (check_supported_stream_same_streams [d] [d'] H).
Defined.

(** ** The frame callback *)

Section CallbackFacts.
Context {A : Arithmetic}.
Import Streams.

(** The two tests of the callback select at most one call. *)
Lemma on_frame_call (algo : rotation_estimator) (f : frame) :
  on_frame algo f =
  match frame_call f with
  | Some c => do_call algo c
  | None => algo
  end.
Proof.
  unfold on_frame, frame_call.
  destruct (is_motion f); simpl; trivial.
  destruct (format_eqb (format f) RS2_FORMAT_MOTION_XYZ32F);
    destruct (stream_type f); simpl; trivial.
Qed.

Lemma on_frames_calls (fs : list frame) (algo : rotation_estimator) :
  on_frames fs algo = run (frame_calls fs) algo.
Proof.
  revert algo. induction fs as [| f fs IH]; intros algo; simpl.
  - reflexivity.
  - unfold on_frames in *. simpl. rewrite IH, on_frame_call.
    unfold frame_calls. simpl.
    destruct (frame_call f); reflexivity.
Qed.

Lemma run_app (cs cs' : list call) (e : rotation_estimator) :
  run (cs ++ cs') e = run cs' (run cs e).
Proof.
  unfold run. apply fold_left_app.
Qed.

End CallbackFacts.

(** X5: the callback of main, run on a sequence of frames, does to the
    estimator what the calls of [process_gyro] and [process_accel]
    for its gyro and accelerometer motion frames in XYZ32F format do,
    in the order of arrival; a frame that is not a motion frame, or of
    another stream or another format, leaves the estimator as it
    is. *)
Theorem callback_dispatch {A : Arithmetic}
    (fs : list frame) (f : frame) (algo : rotation_estimator) :
  on_frames fs algo = run (frame_calls fs) algo /\
  (is_motion f = false -> on_frame algo f = algo) /\
  (Streams.format_eqb (format f) Streams.RS2_FORMAT_MOTION_XYZ32F = false ->
   on_frame algo f = algo) /\
  (Streams.stream_eqb (stream_type f) Streams.RS2_STREAM_GYRO = false ->
   Streams.stream_eqb (stream_type f) Streams.RS2_STREAM_ACCEL = false ->
   on_frame algo f = algo).
Proof.
  split; [apply on_frames_calls |].
  rewrite on_frame_call. unfold frame_call.
  repeat split.
  - intros ->. reflexivity.
  - intros ->. now rewrite andb_false_r.
  - intros Hg Ha.
    destruct (is_motion f && _); trivial.
    destruct (stream_type f); trivial; discriminate.
Qed.

Lemma callback_dispatch_witness :
  let f := mk_frame true Streams.RS2_STREAM_ACCEL Streams.RS2_FORMAT_6DOF
             5 (mk_vector 0 0 1) in
  Streams.format_eqb (format f) Streams.RS2_FORMAT_MOTION_XYZ32F = false /\
  on_frame (estimator_init (mk_float3 7 8 9)) f =
  estimator_init (mk_float3 7 8 9).
Proof.
  intros f. split; [reflexivity |].
  apply (proj1 (proj2 (proj2
           (callback_dispatch [] f (estimator_init (@mk_float3 RArith 7 8 9)))))).
  reflexivity.
Defined.

(** X6: as long as no accelerometer motion frame in XYZ32F format has
    arrived, the callback leaves [theta] at the value it had at
    construction and the estimator uninitialized, whatever gyro frames
    arrive; [last_ts_gyro] is the timestamp of the last gyro frame. *)
Theorem callback_before_first_accel_frame {A : Arithmetic}
    (theta0 : float3) (fs : list frame) :
  existsb is_accel (frame_calls fs) = false ->
  let algo := on_frames fs (estimator_init theta0) in
  theta algo = theta0 /\ first algo = true /\
  last_ts_gyro algo = latest_ts (frame_calls fs) d0.
Proof.
  intros Hn algo. unfold algo. rewrite on_frames_calls.
  split; [| split].
  - now rewrite run_no_accel_theta.
  - rewrite run_init_first, Hn. reflexivity.
  - apply run_last_ts.
Qed.

Lemma callback_before_first_accel_frame_witness :
  let fs := [mk_frame true Streams.RS2_STREAM_GYRO
               Streams.RS2_FORMAT_MOTION_XYZ32F 10 (mk_vector 1 2 3);
             mk_frame true Streams.RS2_STREAM_ACCEL
               Streams.RS2_FORMAT_6DOF 15 (mk_vector 0 0 1);
             mk_frame true Streams.RS2_STREAM_GYRO
               Streams.RS2_FORMAT_MOTION_XYZ32F 20 (mk_vector 1 2 3)] in
  existsb is_accel (frame_calls fs) = false /\
  theta (on_frames fs (estimator_init (mk_float3 7 8 9))) = mk_float3 7 8 9.
Proof.
  intros fs. split; [reflexivity |].
  apply (callback_before_first_accel_frame (@mk_float3 RArith 7 8 9) fs).
  reflexivity.
Defined.

(** ** Histories of the estimator *)

Section HistoryFacts.
Context {A : Arithmetic}.

(** After initialization, the yaw and the stored timestamp of two
    estimators that agree on them still agree when one receives a
    history and the other only its calls of [process_gyro]. *)
Lemma yaw_follows_gyro (cs : list call) (e1 e2 : rotation_estimator) :
  first e1 = false -> first e2 = false ->
  f3_y (theta e1) = f3_y (theta e2) ->
  last_ts_gyro e1 = last_ts_gyro e2 ->
  f3_y (theta (run cs e1)) = f3_y (theta (run (filter is_gyro cs) e2)) /\
  last_ts_gyro (run cs e1) = last_ts_gyro (run (filter is_gyro cs) e2).
Proof.
  revert e1 e2. induction cs as [| c cs IH]; intros e1 e2 H1 H2 Hy Hl.
  - now split.
  - destruct c as [v ts | a |]; simpl.
    + apply IH.
      * now rewrite process_gyro_first.
      * now rewrite process_gyro_first.
      * rewrite (process_gyro_init v ts e1 H1), (process_gyro_init v ts e2 H2).
        simpl. now rewrite Hy, Hl.
      * now rewrite !process_gyro_last_ts.
    + apply IH; trivial.
      * apply process_accel_first.
      * rewrite (process_accel_init a e1 H1). exact Hy.
      * now rewrite process_accel_last_ts.
    + now apply IH.
Qed.

End HistoryFacts.

(** X7: when [process_accel] is called before any call of
    [process_gyro], the first call of [process_gyro] finds
    [last_ts_gyro] at its initial value 0 and the flag clear, so it
    integrates over dt = (ts - 0) / 1000.0, the whole timestamp, and
    adds (-(v.z*dt), -(v.y*dt), v.x*dt) to [theta]. *)
Theorem first_gyro_after_accel_counts_from_zero {A : Arithmetic}
    (theta0 : float3) (cs : list call) (v : rs2_vector) (ts : D) :
  existsb is_accel cs = true ->
  existsb is_gyro cs = false ->
  let e := run cs (estimator_init theta0) in
  let dt := d2f (ddiv (dsub ts d0) d1000) in
  last_ts_gyro e = d0 /\
  theta (process_gyro v ts e) =
  mk_float3 (f3_x (theta e) + - (v_z v * dt))%flt
            (f3_y (theta e) + - (v_y v * dt))%flt
            (f3_z (theta e) + v_x v * dt)%flt.
Proof.
  intros Ha Hg e dt.
  assert (Hl : last_ts_gyro e = d0).
  { unfold e. rewrite run_last_ts. simpl. now apply latest_ts_no_gyro. }
  assert (Hf : first e = false).
  { unfold e. rewrite run_init_first, Ha. reflexivity. }
  split; [exact Hl |].
  rewrite (process_gyro_init v ts e Hf). simpl. rewrite Hl. reflexivity.
Qed.

Lemma first_gyro_after_accel_counts_from_zero_witness :
  let cs := [Accel (mk_vector 0 0 1); GetTheta] in
  let e := run cs (estimator_init (mk_float3 7 8 9)) in
  existsb is_accel cs = true /\ existsb is_gyro cs = false /\
  theta (process_gyro (mk_vector 1 2 3) 5000 e) =
  mk_float3 (f3_x (theta e) + - (3 * ((5000 - 0) / 1000)))
            (f3_y (theta e) + - (2 * ((5000 - 0) / 1000)))
            (f3_z (theta e) + 1 * ((5000 - 0) / 1000)).
Proof.
  intros cs e. split; [reflexivity |]. split; [reflexivity |].
  apply (first_gyro_after_accel_counts_from_zero
           (@mk_float3 RArith 7 8 9) cs (@mk_vector RArith 1 2 3) 5000);
    reflexivity.
Defined.

(** X8: once the estimator is initialized, the yaw (theta.y) and
    [last_ts_gyro] depend on the calls of [process_gyro] alone: taking
    the calls of [process_accel] and [get_theta] out of a history
    changes neither. *)
Theorem yaw_depends_on_gyro_calls_only {A : Arithmetic}
    (e : rotation_estimator) (cs : list call) :
  first e = false ->
  f3_y (theta (run cs e)) = f3_y (theta (run (filter is_gyro cs) e)) /\
  last_ts_gyro (run cs e) = last_ts_gyro (run (filter is_gyro cs) e).
Proof.
  intros Hf. now apply yaw_follows_gyro.
Qed.

Lemma yaw_depends_on_gyro_calls_only_witness :
  let e := process_accel (mk_vector 0 0 1)
             (estimator_init (mk_float3 7 8 9)) in
  let cs := [Gyro (mk_vector 1 2 3) 10; Accel (mk_vector 1 0 0); GetTheta;
             Gyro (mk_vector 3 2 1) 20; Accel (mk_vector 0 1 0)] in
  first e = false /\
  f3_y (theta (run cs e)) =
  f3_y (theta (run [Gyro (mk_vector 1 2 3) 10; Gyro (mk_vector 3 2 1) 20] e)).
Proof.
  intros e cs. split; [reflexivity |].
  apply (yaw_depends_on_gyro_calls_only e cs). reflexivity.
Defined.

(** ** calc_transform and the sign of the quaternion *)

(** X15: in exact arithmetic, a quaternion and its negative, which
    stand for the same rotation, give the same matrix, whatever the
    quaternion and the translation. *)
Theorem calc_transform_negated_quaternion
    (t : rs2_vector) (q : rs2_quaternion) :
  calc_transform (mk_pose t (Geometry.qneg q)) = calc_transform (mk_pose t q).
Proof.
  destruct q as [x y z w]. unfold calc_transform, Geometry.qneg. cbn.
  repeat (apply f_equal2; [lra |]). reflexivity.
Qed.

(** ** The shared estimator, continued *)

Section ConcMore.
Context {A : Arithmetic}.
Import Conc ConcFacts.

(** Only a thread at rest, or one that asks for a mutex that is held,
    cannot take a step. *)
Lemma thread_step_none (t : tid) (p : pc) (s : shared) :
  thread_step t p s = None ->
  at_rest p = true \/ (in_cs p = false /\ theta_mtx s <> None).
Proof.
  destruct p; simpl; unfold lock; try discriminate; auto;
    destruct (theta_mtx s); try discriminate; intros _; right;
    split; trivial; discriminate.
Qed.

(** A thread between a lock and its unlock is not stopped by the
    mutex. *)
Lemma thread_step_in_cs (t : tid) (p : pc) (s : shared) :
  in_cs p = true -> exists p' s', thread_step t p s = Some (p', s').
Proof.
  intros Hcs. destruct (thread_step t p s) as [[p' s'] |] eqn:Hs.
  - now exists p', s'.
  - apply thread_step_none in Hs as [Hr | [Hn _]].
    + destruct p; discriminate.
    + congruence.
Qed.

(** No step writes [alpha], and none sets [first]. *)
Lemma thread_step_alpha_first (t : tid) (p p' : pc) (s s' : shared) :
  thread_step t p s = Some (p', s') ->
  alpha (obj s') = alpha (obj s) /\
  (first (obj s) = false -> first (obj s') = false).
Proof.
  intros H. destruct p; simpl in H; unfold lock in H;
    try destruct (theta_mtx s); try discriminate H;
    injection H as <- <-; simpl; auto.
Qed.

Lemma step_alpha_first (st st' : state) :
  step st st' ->
  alpha (obj (mem st')) = alpha (obj (mem st)) /\
  (first (obj (mem st)) = false -> first (obj (mem st')) = false).
Proof.
  intros [ev Hev]. destruct ev as [t c junk | t]; simpl in Hev.
  - destruct (at_rest (pcs st t)); [| discriminate].
    injection Hev as <-. simpl. auto.
  - destruct (thread_step t (pcs st t) (mem st)) as [[p s] |] eqn:Hs;
      [| discriminate].
    injection Hev as <-. simpl.
    exact (thread_step_alpha_first _ _ _ _ _ Hs).
Qed.

End ConcMore.


(** X17: the estimator cannot deadlock: in every interleaving, a
    thread inside a member function can take its next step, or it
    waits for the mutex and the thread that holds the mutex can take
    its next step. *)
Theorem no_deadlock {A : Arithmetic}
    (theta0 : float3) (st : Conc.state) (t : Conc.tid) :
  Conc.reachable theta0 st ->
  Conc.at_rest (Conc.pcs st t) = false ->
  (exists st', Conc.do_event (Conc.StepEv t) st = Some st') \/
  (exists u st',
      u <> t /\ Conc.theta_mtx (Conc.mem st) = Some u /\
      Conc.do_event (Conc.StepEv u) st = Some st').
Proof.
  intros Hr Hbusy.
  pose proof (ConcFacts.reachable_mutex_inv theta0 st Hr) as Hinv.
  destruct (Conc.thread_step t (Conc.pcs st t) (Conc.mem st))
    as [[p s] |] eqn:Hs.
  - left. eexists. simpl. rewrite Hs. reflexivity.
  - right. apply thread_step_none in Hs as [Hrest | [Hout Hheld]].
    + congruence.
    + destruct (Conc.theta_mtx (Conc.mem st)) as [u |] eqn:Hm;
        [| contradiction].
      assert (Hu : Conc.in_cs (Conc.pcs st u) = true) by now apply Hinv.
      destruct (thread_step_in_cs u _ (Conc.mem st) Hu) as (p' & s' & Hs').
      exists u. eexists. split; [| split; [reflexivity |]].
      * intros ->. congruence.
      * simpl. rewrite Hs'. reflexivity.
Qed.

(** X18: in every interleaving, [alpha] keeps the value the
    constructor gave it, and the flag [first], once cleared, stays
    cleared. *)
Theorem shared_alpha_and_flag {A : Arithmetic}
    (theta0 : float3) (st st' : Conc.state) :
  Conc.reachable theta0 st ->
  Conc.steps st st' ->
  alpha (Conc.obj (Conc.mem st')) = d2f d098 /\
  (first (Conc.obj (Conc.mem st)) = false ->
   first (Conc.obj (Conc.mem st')) = false).
Proof.
  intros Hr Hs.
  assert (Ha : alpha (Conc.obj (Conc.mem st)) = d2f d098).
  { clear Hs. induction Hr as [| st1 st2 _ IH Hstep].
    - reflexivity.
    - rewrite (proj1 (step_alpha_first _ _ Hstep)). exact IH. }
  induction Hs as [| st1 st2 _ IH Hstep].
  - split; [exact Ha | trivial].
  - destruct IH as [IHa IHf].
    destruct (step_alpha_first _ _ Hstep) as [Hsa Hsf].
    split; [now rewrite Hsa | auto].
Qed.


Lemma no_deadlock_witness :
  exists st : Conc.state,
    Conc.do_events Demo2.waiting_run (Conc.init_state Demo.theta0) = Some st /\
    Conc.at_rest (Conc.pcs st Demo.reader) = false /\
    ((exists st', Conc.do_event (Conc.StepEv Demo.reader) st = Some st') \/
     (exists u st',
         u <> Demo.reader /\ Conc.theta_mtx (Conc.mem st) = Some u /\
         Conc.do_event (Conc.StepEv u) st = Some st')).
Proof.
  destruct (Conc.do_events Demo2.waiting_run (Conc.init_state Demo.theta0))
    as [st |] eqn:Hrun; [| cbn in Hrun; discriminate Hrun].
  exists st. split; [reflexivity |].
  assert (Hbusy : Conc.at_rest (Conc.pcs st Demo.reader) = false).
  { pose proof Hrun as Hst. cbn in Hst. injection Hst as <-. reflexivity. }
  split; [exact Hbusy |].
  apply (no_deadlock Demo.theta0 st Demo.reader).
  - exact (ConcFacts.do_events_steps _ _ _ Hrun).
  - exact Hbusy.
Defined.

Lemma shared_alpha_and_flag_witness :
  exists st st' : Conc.state,
    Conc.do_events Demo2.waiting_run (Conc.init_state Demo.theta0) = Some st /\
    Conc.do_events [Conc.StepEv Demo.producer; Conc.StepEv Demo.producer] st
      = Some st' /\
    alpha (Conc.obj (Conc.mem st')) = 98 / 100 /\
    (first (Conc.obj (Conc.mem st)) = false ->
     first (Conc.obj (Conc.mem st')) = false).
Proof.
  destruct (Conc.do_events Demo2.waiting_run (Conc.init_state Demo.theta0))
    as [st |] eqn:Hrun; [| cbn in Hrun; discriminate Hrun].
  destruct (Conc.do_events
              [Conc.StepEv Demo.producer; Conc.StepEv Demo.producer] st)
    as [st' |] eqn:Hrun'.
  - exists st, st'. split; [reflexivity |]. split; [exact Hrun' |].
    apply (shared_alpha_and_flag Demo.theta0 st st').
    + exact (ConcFacts.do_events_steps _ _ _ Hrun).
    + exact (ConcFacts.do_events_steps _ _ _ Hrun').
  - exfalso. cbn in Hrun. injection Hrun as <-. cbn in Hrun'.
    discriminate Hrun'.
Defined.

(** X19: in every interleaving, [theta] is written only by a step of
    the thread that holds [theta_mtx], which still holds it after the
    step: no member function touches [theta] outside its
    [lock_guard]. *)
Theorem theta_written_by_owner_only {A : Arithmetic}
    (theta0 : float3) (st st' : Conc.state) (ev : Conc.event) :
  Conc.reachable theta0 st ->
  Conc.do_event ev st = Some st' ->
  Conc.theta_of st' <> Conc.theta_of st ->
  exists t : Conc.tid,
    ev = Conc.StepEv t /\
    Conc.in_cs (Conc.pcs st t) = true /\
    Conc.theta_mtx (Conc.mem st) = Some t /\
    Conc.theta_mtx (Conc.mem st') = Some t.
Proof.
  intros Hr Hev Hneq.
  destruct (ConcFacts.theta_written_under_mutex theta0 st st' ev Hr Hev Hneq)
    as (t & -> & Hm & Hm').
  exists t. repeat split; trivial.
  now apply (ConcFacts.reachable_mutex_inv theta0 st Hr).
Qed.

Lemma theta_written_by_owner_only_witness :
  exists st st' : Conc.state,
    Conc.do_events Demo2.waiting_run (Conc.init_state Demo.theta0) = Some st /\
    Conc.do_event (Conc.StepEv Demo.producer) st = Some st' /\
    Conc.theta_of st' <> Conc.theta_of st /\
    Conc.theta_mtx (Conc.mem st) = Some Demo.producer.
Proof.
  destruct (Conc.do_events Demo2.waiting_run (Conc.init_state Demo.theta0))
    as [st |] eqn:Hrun; [| cbn in Hrun; discriminate Hrun].
  destruct (Conc.do_event (Conc.StepEv Demo.producer) st) as [st' |] eqn:Hev.
  - exists st, st'. split; [reflexivity |]. split; [exact Hev |].
    assert (Hneq : Conc.theta_of st' <> Conc.theta_of st).
    { pose proof Hrun as Hst. cbn in Hst. injection Hst as <-.
      cbn in Hev. injection Hev as <-. unfold Conc.theta_of. cbn.
      destruct accel_down_angles as [Hp _].
      unfold accel_pitch in Hp. cbn in Hp. rewrite Hp.
      intros H. injection H as H. lra. }
    split; [exact Hneq |].
    destruct (theta_written_by_owner_only Demo.theta0 st st' _
                (ConcFacts.do_events_steps _ _ _ Hrun) Hev Hneq)
      as (t & Ht & _ & Hm & _).
    injection Ht as <-. exact Hm.
  - exfalso. cbn in Hrun. injection Hrun as <-. cbn in Hev.
    discriminate Hev.
Defined.
